(** * Requirements and their status: a shallow embedding of
      [project/plugins/requirement.py] and of the layers around it.

    Python objects live in a store: mutable containers (dict, list) are
    reached through references, immutable scalars are values.  Methods are
    written in a small state-and-exception monad over that store, the way
    the Python code threads [self], [environ] and the heap. *)

From Stdlib Require Import ZArith String Ascii List Lia DecimalString.
From stdpp Require Import base option gmap strings list fin_maps.

Local Open Scope string_scope.
Local Open Scope list_scope.

(* ===================================================================== *)
(** ** Python strings                                                     *)
(* ===================================================================== *)

(** [s.endswith(suffix)]: the last [len(suffix)] characters of [s] are
    [suffix]. *)
Definition endswith (s suffix : string) : bool :=
  let n := String.length s in
  let k := String.length suffix in
  if (k <=? n)%nat then String.eqb (substring (n - k) k s) suffix else false.

(** [any(...)] over a tuple. *)
Definition any {A : Type} (p : A -> bool) (xs : list A) : bool := existsb p xs.

(** [needle in haystack] for two strings. *)
Fixpoint str_contains (needle haystack : string) : bool :=
  String.prefix needle haystack ||
  match haystack with
  | EmptyString => false
  | String _ rest => str_contains needle rest
  end.

(* ===================================================================== *)
(** ** Python values and the object store                                 *)
(* ===================================================================== *)

Definition loc := positive.

(** Scalars are immutable and carried by value; a dict or a list is a
    reference into the store. *)
Inductive val : Type :=
| VNone
| VBool (b : bool)
| VInt (z : Z)
| VStr (s : string)
| VRef (l : loc).

(** The containers of option data: a dict keyed by strings, a list. *)
Inductive obj : Type :=
| ODict (items : gmap string val)
| OList (elems : list val).

Abbreviation heap := (gmap loc obj).

#[global] Instance val_eq_dec : EqDecision val.
Proof. solve_decision. Defined.

(** [key in d] *)
Definition dict_contains (items : gmap string val) (key : string) : bool :=
  match items !! key with
  | Some _ => true
  | None => false
  end.

(** The state a method runs in: the object store, and the contents of the
    [environ] mapping (string to string) that the caller passes by
    reference. *)
Record world : Type := World {
  objects : heap;
  environ : gmap string string
}.

(** State and exception monad: [None] is a raised Python exception. *)
Definition M (A : Type) : Type := world -> option (A * world).

Definition ret {A} (a : A) : M A := fun w => Some (a, w).
Definition raise {A} : M A := fun _ => None.
Definition bind {A B} (k : A -> M B) (m : M A) : M B :=
  fun w => match m w with
           | Some (a, w') => k a w'
           | None => None
           end.

(** [x ← m; k] sequences two statements. *)
#[global] Instance M_bind : MBind M := @bind.

(** A statement that only reads returns in the state it ran in. *)
Definition read_only {A} (m : M A) : Prop :=
  forall w a w', m w = Some (a, w') -> w' = w.

(** Primitive effects. *)
Definition get_object (l : loc) : M obj :=
  fun w => match objects w !! l with
           | Some o => Some (o, w)
           | None => None
           end.

Definition get_dict (l : loc) : M (gmap string val) :=
  o ← get_object l;
  match o with
  | ODict items => ret items
  | OList _ => raise
  end.

Definition set_object (l : loc) (o : obj) : M unit :=
  fun w => Some (tt, World (<[l := o]> (objects w)) (environ w)).

(** A new object gets an address no object has yet. *)
Definition alloc (o : obj) : M loc :=
  fun w => let l := fresh (dom (objects w)) in
           Some (l, World (<[l := o]> (objects w)) (environ w)).

(** [environ.get(key, None)] *)
Definition environ_get (key : string) : M (option string) :=
  fun w => Some (environ w !! key, w).

(** Truth value of an object: [None], [False], [0], [""], [[]] and [{}] are
    false, everything else is true. *)
Definition truthy (v : val) : M bool :=
  match v with
  | VNone => ret false
  | VBool b => ret b
  | VInt z => ret (negb (z =? 0)%Z)
  | VStr s => ret (negb (String.eqb s ""))
  | VRef l =>
      o ← get_object l;
      match o with
      | ODict items => ret (negb (Nat.eqb (size items) 0))
      | OList elems => ret (negb (Nat.eqb (length elems) 0))
      end
  end.

(** The objects that Python counts as true, case by case and without
    reference to [truthy]: [True], a number other than zero, a string with
    at least one character, a dict or a list with at least one item. *)
Inductive python_true (h : heap) : val -> Prop :=
| true_bool : python_true h (VBool true)
| true_int (z : Z) : z <> 0%Z -> python_true h (VInt z)
| true_str (s : string) : s <> "" -> python_true h (VStr s)
| true_dict (l : loc) (items : gmap string val) :
    h !! l = Some (ODict items) -> items <> ∅ -> python_true h (VRef l)
| true_list (l : loc) (elems : list val) :
    h !! l = Some (OList elems) -> elems <> [] -> python_true h (VRef l).

(* ===================================================================== *)
(** ** copy.deepcopy                                                      *)
(* ===================================================================== *)

(** A [for] loop over [xs] that threads [s] through its body. *)
Fixpoint foldM {A S} (f : A -> S -> M S) (xs : list A) (s : S) : M S :=
  match xs with
  | [] => ret s
  | x :: rest => s' ← f x s; foldM f rest s'
  end.

Definition dict_setitem (l : loc) (key : string) (v : val) : M unit :=
  items ← get_dict l;
  set_object l (ODict (<[key := v]> items)).

Definition list_append (l : loc) (v : val) : M unit :=
  o ← get_object l;
  match o with
  | OList elems => set_object l (OList (elems ++ [v]))
  | ODict _ => raise
  end.

(** The loop bodies: [y[deepcopy(key, memo)] = deepcopy(value, memo)] (a
    string key is its own copy) and [y.append(deepcopy(a, memo))]. *)
Definition copy_item (dc : val -> gmap loc loc -> M (val * gmap loc loc)) (y : loc)
    (item : string * val) (memo : gmap loc loc) : M (gmap loc loc) :=
  '(value', memo') ← dc item.2 memo;
  _ ← dict_setitem y item.1 value';
  ret memo'.

Definition copy_elem (dc : val -> gmap loc loc -> M (val * gmap loc loc)) (y : loc)
    (a : val) (memo : gmap loc loc) : M (gmap loc loc) :=
  '(a', memo') ← dc a memo;
  _ ← list_append y a';
  ret memo'.

(** [deepcopy(x, memo)]: scalars are returned as they are; a container met
    before is answered from [memo]; a new container is allocated empty,
    recorded in [memo], and filled with the copies of its items in order.
    [fuel] bounds the depth of the recursion. *)
Fixpoint deepcopy (fuel : nat) (x : val) (memo : gmap loc loc)
  : M (val * gmap loc loc) :=
  match x with
  | VRef l =>
      match memo !! l with
      | Some y => ret (VRef y, memo)
      | None =>
          match fuel with
          | O => raise
          | S fuel' =>
              o ← get_object l;
              match o with
              | ODict items =>
                  y ← alloc (ODict ∅);
                  memo' ← foldM (copy_item (deepcopy fuel') y)
                                 (map_to_list items) (<[l := y]> memo);
                  ret (VRef y, memo')
              | OList elems =>
                  y ← alloc (OList []);
                  memo' ← foldM (copy_elem (deepcopy fuel') y)
                                 elems (<[l := y]> memo);
                  ret (VRef y, memo')
              end
          end
      end
  | _ => ret (x, memo)
  end.

(* ===================================================================== *)
(** ** requirement.py                                                     *)
(* ===================================================================== *)

(** Modelled from the spec: the provider class is not in the sources.  This
    module only passes providers on in [possible_providers]; a provider
    carries the name that the configuration form uses for it. *)
Record Provider : Type := mkProvider { provider_name : string }.

(** Modelled from the spec: the plugin registry is not in the sources.
    [check_status] only calls [find_providers_by_env_var(self, self.env_var)]
    on it, a read-only lookup that returns the providers in registration
    order; the registry sees the requirement through its options and its
    variable name. *)
Record PluginRegistry : Type := mkRegistry {
  find_providers_by_env_var : loc -> string -> list Provider
}.

(** class EnvVarRequirement(Requirement): [registry] and [options] are the
    attributes of the base class, [options] is a reference to a dict. *)
Record EnvVarRequirement : Type := mkEnvVarRequirement {
  registry : PluginRegistry;
  options : loc;
  env_var : string
}.

(** class RequirementStatus *)
Record RequirementStatus : Type := mkRequirementStatus {
  requirement : EnvVarRequirement;
  has_been_provided : bool;
  status_description : string;
  possible_providers : list Provider
}.

(** [RequirementStatus.__bool__] *)
Definition status_bool (st : RequirementStatus) : bool := has_been_provided st.

(** [Requirement.__init__(self, registry, options)]: the value of
    [self.options]. *)
Definition Requirement_init (fuel : nat) (options : option loc) : M loc :=
  match options with
  | None => alloc (ODict ∅)
  | Some l =>
      '(copy, _) ← deepcopy fuel (VRef l) ∅;
      match copy with
      | VRef l' => ret l'
      | _ => raise
      end
  end.

(** [EnvVarRequirement.__init__(self, registry, env_var, options=None)] *)
Definition EnvVarRequirement_init (fuel : nat) (registry : PluginRegistry)
    (env_var : string) (options : option loc) : M EnvVarRequirement :=
  opts ← Requirement_init fuel options;
  ret (mkEnvVarRequirement registry opts env_var).

(** [EnvVarRequirement.__repr__]: [class_name] is [self.__class__.__name__],
    the name of the class of the object, so a subclass prints its own. *)
Definition EnvVarRequirement_repr (class_name : string)
    (self : EnvVarRequirement) : string :=
  class_name +:+ "(env_var='" +:+ env_var self +:+ "')".

(** [EnvVarRequirement.title] *)
Definition title (self : EnvVarRequirement) : string := env_var self.

Definition _secret_suffixes : list string :=
  ["_PASSWORD"; "_ENCRYPTED"; "_SECRET_KEY"; "_SECRET"].

(** [EnvVarRequirement.encrypted] *)
Definition encrypted (self : EnvVarRequirement) : M val :=
  opts ← get_dict (options self);
  if dict_contains opts "encrypted" then
    match opts !! "encrypted" with
    | Some v => ret v
    | None => raise
    end
  else
    ret (VBool (any (fun suffix => endswith (env_var self) suffix) _secret_suffixes)).

(** [EnvVarRequirement._get_value_of_env_var] *)
Definition _get_value_of_env_var (self : EnvVarRequirement) : M (option string) :=
  value ← environ_get (env_var self);
  ret (match value with
       | Some s => if String.eqb s "" then None else Some s
       | None => None
       end).

(** [EnvVarRequirement._unset_message] *)
Definition _unset_message (self : EnvVarRequirement) : string :=
  "Environment variable " +:+ env_var self +:+ " is not set.".

(** ["{value}".format(value=...)] of a string or [None]. *)
Definition format_value (value : option string) : string :=
  match value with
  | Some s => s
  | None => "None"
  end.

(** [EnvVarRequirement._set_message] *)
Definition _set_message (self : EnvVarRequirement) : M string :=
  e ← encrypted self;
  b ← truthy e;
  if (b : bool) then
    ret ("Environment variable " +:+ env_var self +:+ " is set.")
  else
    value ← _get_value_of_env_var self;
    ret ("Environment variable " +:+ env_var self +:+ " set to '"
         +:+ format_value value +:+ "'").

(** [EnvVarRequirement.check_status] *)
Definition check_status (self : EnvVarRequirement) : M RequirementStatus :=
  value ← _get_value_of_env_var self;
  let possible_providers :=
    find_providers_by_env_var (registry self) (options self) (env_var self) in
  match value with
  | None =>
      ret (mkRequirementStatus self false (_unset_message self) possible_providers)
  | Some _ =>
      description ← _set_message self;
      ret (mkRequirementStatus self true description possible_providers)
  end.

(** [RequirementStatus.recheck] *)
Definition recheck (st : RequirementStatus) : M RequirementStatus :=
  check_status (requirement st).

(** *** Well-formed stores *)

(** The references an object holds. *)
Definition val_refs (v : val) : list loc :=
  match v with
  | VRef l => [l]
  | _ => []
  end.

Definition obj_vals (o : obj) : list val :=
  match o with
  | ODict items => map snd (map_to_list items)
  | OList elems => elems
  end.

Definition obj_refs (o : obj) : list loc := flat_map val_refs (obj_vals o).

(** Python has no dangling references: whatever an object refers to is in
    the store. *)
Definition heap_closed (h : heap) : Prop :=
  map_Forall (fun _ o => Forall (fun l' => is_Some (h !! l')) (obj_refs o)) h.

#[global] Instance heap_closed_dec (h : heap) : Decision (heap_closed h).
Proof. unfold heap_closed. apply _. Defined.

(** A constructed requirement: [self.options] is a dict of the store. *)
Definition wf_requirement (w : world) (self : EnvVarRequirement) : Prop :=
  heap_closed (objects w) /\
  exists opts, objects w !! options self = Some (ODict opts).

(** *** Copies *)

(** [v'] is [v] with its reference translated by [memo]. *)
Definition val_rel (memo : gmap loc loc) (v v' : val) : Prop :=
  match v with
  | VRef l => exists l', memo !! l = Some l' /\ v' = VRef l'
  | _ => v' = v
  end.

(** [o'] has the shape and scalars of [o], its references translated. *)
Definition obj_rel (memo : gmap loc loc) (o o' : obj) : Prop :=
  match o, o' with
  | ODict d, ODict d' => forall k, option_Forall2 (val_rel memo) (d !! k) (d' !! k)
  | OList e, OList e' => Forall2 (val_rel memo) e e'
  | _, _ => False
  end.

(** The objects one can get to from an object by following references. *)
Inductive reachable (h : heap) : loc -> loc -> Prop :=
| reach_here (l : loc) : reachable h l l
| reach_step (l l' l'' : loc) (o : obj) :
    h !! l = Some o -> In l' (obj_refs o) -> reachable h l' l'' ->
    reachable h l l''.

(** The object graph under [y] in [h'] is a copy of the graph under [l] in
    [h]: a one-to-one translation of addresses takes [l] to [y] and every
    translated object of [h] to an object of [h'] with the same content. *)
Definition deep_copy_of (h h' : heap) (l y : loc) : Prop :=
  exists memo : gmap loc loc,
    memo !! l = Some y /\
    (forall a1 a2 b, memo !! a1 = Some b -> memo !! a2 = Some b -> a1 = a2) /\
    (forall a b, memo !! a = Some b ->
       exists o o', h !! a = Some o /\ h' !! b = Some o' /\ obj_rel memo o o').

(** The state of a copy in progress, started on the store [h0]: the old
    objects are as they were, [memo] takes old addresses one-to-one to new
    ones, and every translated object outside [pending] is fully copied. *)
Record copying (h0 : heap) (pending : gset loc) (h : heap) (memo : gmap loc loc)
  : Prop := Copying {
  copying_frame : forall l, l ∈ dom h0 -> h !! l = h0 !! l;
  copying_new : forall a b, memo !! a = Some b ->
                            a ∈ dom h0 /\ b ∈ dom h /\ b ∉ dom h0;
  copying_inj : forall a1 a2 b, memo !! a1 = Some b -> memo !! a2 = Some b -> a1 = a2;
  copying_done : forall a b, memo !! a = Some b -> a ∉ pending ->
                 exists o o', h0 !! a = Some o /\ h !! b = Some o' /\ obj_rel memo o o'
}.

(** What one call [dc x memo] achieves from a copy in progress, while fewer
    than [bound] old objects are still to be visited: it returns the copy of
    [x], extends [memo], writes only to objects it allocates, and leaves the
    copy in progress in order. *)
Definition deepcopy_ok (h0 : heap) (e : gmap string string)
    (dc : val -> gmap loc loc -> M (val * gmap loc loc)) (bound : nat) : Prop :=
  forall x P h m,
    copying h0 P h m ->
    (forall l, x = VRef l -> l ∈ dom h0) ->
    size (dom h0 ∖ dom m) < bound ->
    exists x' m' h',
      dc x m (World h e) = Some ((x', m'), World h' e) /\
      m ⊆ m' /\ copying h0 P h' m' /\
      (forall l, l ∈ dom h -> h' !! l = h !! l) /\
      val_rel m' x x'.

(** The mutations of a caller whose data are the objects of [h0]: from [h1]
    on it writes whatever it likes into those objects and allocates new
    ones.  The objects allocated between [h0] and [h1] are not among its
    data, and are in [h2] as in [h1]. *)
Definition mutates_only_since (h0 h1 h2 : heap) : Prop :=
  forall l, l ∈ dom h1 -> l ∉ dom h0 -> h2 !! l = h1 !! l.

(** [bool(self.encrypted)], as [_set_message] tests it. *)
Definition encrypted_truth (self : EnvVarRequirement) : M bool :=
  e ← encrypted self; truthy e.

(* ===================================================================== *)
(** ** The preparation stage and the interactive configuration server     *)
(* ===================================================================== *)

(** *** What the tests build (test_ui_server.py) *)

(** Modelled from the spec: the result classes of [project.prepare], which
    is not in the sources, as the tests construct them:
    [PrepareSuccess(logs, command_exec_info, environ)] and
    [PrepareFailure(logs, errors)]. *)
Inductive PrepareResult : Type :=
| PrepareSuccess (logs : list string) (command_exec_info : option string)
                 (result_environ : gmap string string)
| PrepareFailure (logs errors : list string).

(** Modelled from the spec: [LocalStateFile], which is not in the sources: a
    store keyed by path segments; [get_value(path)] is the lookup, [None]
    when nothing is stored. *)
Abbreviation LocalStateFile := (gmap (list string) string).

(** Modelled from the spec: [ConfigurePrepareContext(environ,
    local_state_file, statuses)] of [project.prepare], as the tests construct
    it. *)
Record ConfigurePrepareContext : Type := mkContext {
  ctx_environ : gmap string string;
  ctx_local_state_file : LocalStateFile;
  ctx_statuses : list RequirementStatus
}.

(** Modelled from the spec: [_FunctionPrepareStage(description, function,
    config_context)] of [project.prepare]: running the stage calls
    [function], which leaves a result or, when another stage has to follow,
    none. *)
Record PrepareStage : Type := FunctionPrepareStage {
  description_of_action : string;
  stage_function : ConfigurePrepareContext -> option PrepareResult;
  configure_context : ConfigurePrepareContext
}.

(** [_no_op_prepare(config_context)]: the stage of the tests, whose function
    sets [PrepareSuccess(logs=[], command_exec_info=None, environ=dict())]. *)
Definition _do_nothing (_ : ConfigurePrepareContext) : option PrepareResult :=
  Some (PrepareSuccess [] None ∅).

Definition _no_op_prepare (config_context : ConfigurePrepareContext) : PrepareStage :=
  FunctionPrepareStage "Do Nothing" _do_nothing config_context.

(** *** The pipeline step *)

Inductive PipelineState : Type :=
| Success (result : PrepareResult)
| Failure (result : PrepareResult)
| AwaitingInput (unmet : list RequirementStatus)
| ApplyingProviders (unmet : list RequirementStatus).

Definition unmet_of (statuses : list RequirementStatus) : list RequirementStatus :=
  filter (fun st => has_been_provided st = false) statuses.

Definition without_provider (statuses : list RequirementStatus) : list RequirementStatus :=
  filter (fun st => possible_providers st = []) statuses.

(** Modelled from the spec: the transition on entry to "Computing status"
    of the preparation pipeline (the module [project.prepare] is not in the
    sources).  Every requirement is checked again against the current
    [environ]; all provided gives [Success] with the accumulated logs; an
    unmet requirement without a capable provider gives [Failure] listing
    those requirements; otherwise the unmet set awaits input (interactive)
    or has its providers applied (batch).  A check that raises is a fatal
    error ([None]). *)
Definition computing_status (h : heap) (interactive : bool) (logs : list string)
    (ctx : ConfigurePrepareContext) : option PipelineState :=
  statuses ← mapM (fun st => fst <$> recheck st (World h (ctx_environ ctx)))
                  (ctx_statuses ctx);
  Some (match unmet_of statuses with
        | [] => Success (PrepareSuccess logs None (ctx_environ ctx))
        | unmet =>
            match without_provider unmet with
            | [] => if interactive then AwaitingInput unmet else ApplyingProviders unmet
            | missing =>
                Failure (PrepareFailure logs
                           (map (fun st => title (requirement st)) missing))
            end
        end).

(** The stage that runs this step once. *)
Definition computing_status_stage (h : heap) (config_context : ConfigurePrepareContext)
  : PrepareStage :=
  FunctionPrepareStage "Computing status"
    (fun ctx => match computing_status h true [] ctx with
                | Some (Success r) | Some (Failure r) => Some r
                | _ => None
                end)
    config_context.

(** *** Form field names *)

(** [name.split(".")] *)
Fixpoint split_dot (s : string) : list string :=
  match s with
  | EmptyString => [EmptyString]
  | String c rest =>
      if Ascii.eqb c "." then EmptyString :: split_dot rest
      else match split_dot rest with
           | [] => [String c EmptyString]
           | piece :: pieces => String c piece :: pieces
           end
  end.

(** [".".join(parts)] *)
Definition join_dot (parts : list string) : string := String.concat "." parts.

(** A string without a dot. *)
Fixpoint dot_free (s : string) : bool :=
  match s with
  | EmptyString => true
  | String c rest => negb (Ascii.eqb c ".") && dot_free rest
  end.

(** [repr] of a list of plain strings: ['a', 'b']. *)
Definition repr_str (s : string) : string := "'" +:+ s +:+ "'".

Definition repr_list (parts : list string) : string :=
  "[" +:+ String.concat ", " (map repr_str parts) +:+ "]".

(** *** The server *)

Record HTTPResponse : Type := mkResponse {
  code : nat;
  (** the [<input type=... name=...>] elements of the body *)
  inputs : list (string * string)
}.

Inductive UIServerEvent : Type := UIServerDoneEvent.

(** Modelled from the spec: the interactive configuration server
    ([project.internal.ui_server], of which the sources have only the
    tests).  The session holds the stage it was built with and its context,
    the requirement ids handed out by the last GET, the events given to the
    caller's event handler, the lines printed on stderr, whether the socket
    still listens, and the result of the resumed pipeline. *)
Record UIServer : Type := mkUIServer {
  prepare_stage : PrepareStage;
  context : ConfigurePrepareContext;
  _requirements_by_id : list (string * RequirementStatus);
  events : list UIServerEvent;
  stderr : list string;
  listening : bool;
  prepare_result : option PrepareResult
}.

(** Modelled from the spec: [UIServer(prepare_stage, event_handler,
    io_loop)]: a listening session with no ids handed out and no event yet. *)
Definition UIServer_init (stage : PrepareStage) : UIServer :=
  mkUIServer stage (configure_context stage) [] [] [] true None.

Definition with_requirements_by_id (by_id : list (string * RequirementStatus))
    (s : UIServer) : UIServer :=
  mkUIServer (prepare_stage s) (context s) by_id (events s) (stderr s)
             (listening s) (prepare_result s).

Definition print_stderr (line : string) (s : UIServer) : UIServer :=
  mkUIServer (prepare_stage s) (context s) (_requirements_by_id s) (events s)
             (stderr s ++ [line]) (listening s) (prepare_result s).

Definition set_local_state (path : list string) (value : string) (s : UIServer)
  : UIServer :=
  mkUIServer (prepare_stage s)
             (mkContext (ctx_environ (context s))
                        (<[path := value]> (ctx_local_state_file (context s)))
                        (ctx_statuses (context s)))
             (_requirements_by_id s) (events s) (stderr s)
             (listening s) (prepare_result s).

(** Modelled from the spec: a submitted value flows back into the mutable
    [environ] of the pipeline, which the next check reads. *)
Definition set_environ (name value : string) (s : UIServer) : UIServer :=
  mkUIServer (prepare_stage s)
             (mkContext (<[name := value]> (ctx_environ (context s)))
                        (ctx_local_state_file (context s))
                        (ctx_statuses (context s)))
             (_requirements_by_id s) (events s) (stderr s)
             (listening s) (prepare_result s).

(** Modelled from the spec: after a POST the pipeline is resumed and the
    caller's event handler is told once. *)
Definition finish_post (s : UIServer) : UIServer :=
  mkUIServer (prepare_stage s) (context s) (_requirements_by_id s)
             (events s ++ [UIServerDoneEvent]) (stderr s) (listening s)
             (stage_function (prepare_stage s) (context s)).

(** Modelled from the spec: [server.unlisten()] releases the listening
    socket. *)
Definition unlisten (s : UIServer) : UIServer :=
  mkUIServer (prepare_stage s) (context s) (_requirements_by_id s) (events s)
             (stderr s) false (prepare_result s).

(** Modelled from the spec: requirement ids are made up per GET; [new_id i]
    is the id of the i-th status. *)
Definition assign_ids (new_id : nat -> string) (statuses : list RequirementStatus)
  : list (string * RequirementStatus) :=
  imap (fun i st => (new_id i, st)) statuses.

(** Modelled from the spec: one text field per unmet requirement that a
    provider can take a value for, named
    [{requirement-id}.{provider-name}.value] after its first-ranked
    provider. *)
Definition form_field (entry : string * RequirementStatus) : list (string * string) :=
  if has_been_provided entry.2 then []
  else match possible_providers entry.2 with
       | [] => []
       | provider :: _ =>
           [("text", join_dot [entry.1; provider_name provider; "value"])]
       end.

(** Modelled from the spec: GET / answers 200 with the form.  A request to
    a socket that no longer listens gets no response. *)
Definition http_get (new_id : nat -> string) (s : UIServer)
  : option (HTTPResponse * UIServer) :=
  if listening s then
    let by_id := assign_ids new_id (ctx_statuses (context s)) in
    Some (mkResponse 200 (flat_map form_field by_id), with_requirements_by_id by_id s)
  else None.

Definition lookup_id (by_id : list (string * RequirementStatus)) (req_id : string)
  : option RequirementStatus :=
  snd <$> List.find (fun entry => String.eqb (fst entry) req_id) by_id.

Definition find_provider (status : RequirementStatus) (provider_key : string)
  : option Provider :=
  List.find (fun p => String.eqb (provider_name p) provider_key)
            (possible_providers status).

Inductive Routed : Type :=
| Ignored (log : string)
| Accepted (status : RequirementStatus) (provider : Provider) (field : string).

(** Modelled from the spec: routing of one submitted field by its composite
    name: fewer than three pieces, an unknown requirement id and an unknown
    provider are ignored with a log line. *)
Definition route_field (by_id : list (string * RequirementStatus)) (name : string)
  : Routed :=
  let parts := split_dot name in
  match parts with
  | req_id :: provider_key :: field :: more =>
      match lookup_id by_id req_id with
      | None => Ignored (req_id +:+ " not a known requirement id")
      | Some status =>
          match find_provider status provider_key with
          | None => Ignored ("did not find provider " +:+ provider_key)
          | Some provider => Accepted status provider (join_dot (field :: more))
          end
      end
  | _ => Ignored ("not enough pieces in " +:+ repr_list parts)
  end.

(** Modelled from the spec: a routed [value] is fed into the pipeline's
    environ under the variable and into local state under
    [["variables", env_var]]; an ignored field leaves a line on stderr and
    nothing else. *)
Definition post_field (s : UIServer) (submitted : string * string) : UIServer :=
  match route_field (_requirements_by_id s) submitted.1 with
  | Ignored log => print_stderr log s
  | Accepted status provider field =>
      if String.eqb field "value" then
        set_environ (env_var (requirement status)) submitted.2
          (set_local_state ["variables"; env_var (requirement status)] submitted.2 s)
      else s
  end.

(** Modelled from the spec: POST / routes every submitted field, then
    resumes the pipeline; the response is 200 whatever the fields were. *)
Definition http_post (body : list (string * string)) (s : UIServer)
  : option (HTTPResponse * UIServer) :=
  if listening s then
    Some (mkResponse 200 [], finish_post (foldl post_field s body))
  else None.


(* ===================================================================== *)
(** ** Service declarations of the project file                           *)
(* ===================================================================== *)

(** A value of the project file, as the YAML loader hands it over. *)
Inductive yaml : Type :=
| YNull
| YBool (b : bool)
| YInt (z : Z)
| YStr (s : string)
| YList (elems : list yaml)
| YDict (items : list (string * yaml)).

(** [repr(value)] *)
Fixpoint py_repr (v : yaml) : string :=
  match v with
  | YNull => "None"
  | YBool true => "True"
  | YBool false => "False"
  | YInt z => NilZero.string_of_int (Z.to_int z)
  | YStr s => repr_str s
  | YList elems => "[" +:+ String.concat ", " (map py_repr elems) +:+ "]"
  | YDict items =>
      "{" +:+ String.concat ", "
                (map (fun item => repr_str (fst item) +:+ ": " +:+ py_repr (snd item)) items)
          +:+ "}"
  end.

(** ["{}".format(value)]: a string is printed as it is. *)
Definition py_str (v : yaml) : string :=
  match v with
  | YStr s => s
  | _ => py_repr v
  end.

Definition yaml_get (items : list (string * yaml)) (key : string) : option yaml :=
  snd <$> List.find (fun item => String.eqb (fst item) key) items.

(** null, a string or a number *)
Definition is_scalar (v : yaml) : bool :=
  match v with
  | YList _ | YDict _ => false
  | _ => true
  end.

Record ServiceRequirement : Type := mkServiceRequirement {
  service_env_var : string;
  service_type : string;
  service_options : list (string * yaml)
}.

(** Modelled from the spec: the loading of one entry of the [services]
    section ([conda_kapsel.project], of which the sources have only the
    tests).  The value is a service type string or a dictionary of options
    with a [type]; a bad declaration is reported as one problem string
    naming the service, with the texts the tests expect, and loading goes on.
    [known_type] stands for the registry's lookup of a service type. *)
Definition load_service (known_type : string -> bool) (name : string) (value : yaml)
  : ServiceRequirement + string :=
  match (match value with
         | YStr s => Some [("type", YStr s)]
         | YDict items => Some items
         | _ => None
         end) with
  | None =>
      inr ("Service " +:+ name
           +:+ " should have a service type string or a dictionary as its value.")
  | Some options =>
      match yaml_get options "type" with
      | None => inr ("Service " +:+ name +:+ " doesn't contain a 'type' field.")
      | Some type =>
          let typed :=
            if known_type (py_str type)
            then inl (mkServiceRequirement name (py_str type) options)
            else inr ("Service " +:+ name +:+ " has an unknown type '"
                      +:+ py_str type +:+ "'.") in
          match yaml_get options "default" with
          | Some value_of_default =>
              if is_scalar value_of_default then typed
              else inr ("default value for variable " +:+ name
                        +:+ " must be null, a string, or a number, not "
                        +:+ py_str value_of_default +:+ ".")
          | None => typed
          end
      end
  end.

(** [Project(dirname)]: the requirements and the problems of the whole
    [services] section, in order. *)
Fixpoint load_services (known_type : string -> bool) (services : list (string * yaml))
  : list ServiceRequirement * list string :=
  match services with
  | [] => ([], [])
  | (name, value) :: rest =>
      let '(requirements, problems) := load_services known_type rest in
      match load_service known_type name value with
      | inl requirement => (requirement :: requirements, problems)
      | inr problem => (requirements, problem :: problems)
      end
  end.


(* ===================================================================== *)
(** ** Command line output                                                *)
(* ===================================================================== *)

(** Modelled from the spec: [SimpleStatus(success, description, errors)],
    the result of an operation, as the tests construct it. *)
Record SimpleStatus : Type := mkSimpleStatus {
  success : bool;
  description : string;
  errors : list string
}.

(** What an operation tells its frontend while it runs. *)
Inductive FrontendCall : Type :=
| info (message : string)
| error (message : string).

Record Console : Type := mkConsole {
  out : string;
  err : string
}.

Definition newline : string := String (ascii_of_nat 10) EmptyString.

(** [print(line)] and [print(line, file=sys.stderr)] *)
Definition print_out (line : string) (c : Console) : Console :=
  mkConsole (out c +:+ line +:+ newline) (err c).

Definition print_err (line : string) (c : Console) : Console :=
  mkConsole (out c) (err c +:+ line +:+ newline).

(** Modelled from the spec: the command line frontend prints progress on
    stdout and errors on stderr as they come. *)
Definition frontend_call (c : Console) (call : FrontendCall) : Console :=
  match call with
  | info message => print_out message c
  | error message => print_err message c
  end.

(** Modelled from the spec: a command of the command line interface
    ([anaconda_project.internal.cli], of which the sources have only the
    tests).  The operation runs with the command line frontend and returns
    its status; a success prints the description on stdout and exits 0, a
    failure prints it on stderr after the errors and exits 1. *)
Definition run_command (operation : list FrontendCall * SimpleStatus) : nat * Console :=
  let c := foldl frontend_call (mkConsole "" "") operation.1 in
  if success operation.2
  then (0, print_out (description operation.2) c)
  else (1, print_err (description operation.2) c).

(** The lines a run collected, and a sequence of lines as printed. *)
Definition logs_of (calls : list FrontendCall) : list string :=
  flat_map (fun call => match call with info m => [m] | error _ => [] end) calls.

Definition errors_of (calls : list FrontendCall) : list string :=
  flat_map (fun call => match call with info _ => [] | error m => [m] end) calls.

Fixpoint printed (lines : list string) : string :=
  match lines with
  | [] => ""
  | line :: rest => line +:+ newline +:+ printed rest
  end.

(* ===================================================================== *)
(** ** The helper of test_service_requirement.py                          *)
(* ===================================================================== *)

(** A loaded requirement is of one of the requirement classes;
    [isinstance(req, ServiceRequirement)] tells them apart. *)
Inductive AnyRequirement : Type :=
| EnvVarKind (req : EnvVarRequirement)
| ServiceKind (req : ServiceRequirement).

(** Modelled from the spec: what a loaded [Project] shows to the helper, its
    problems and its requirements in order (the class is not in the
    sources). *)
Record Project : Type := mkProject {
  problems : list string;
  requirements : list AnyRequirement
}.

Inductive TestError : Type :=
| AssertionError
| RuntimeError (message : string).

(** The [for] loop of the helper: the first requirement that is a
    [ServiceRequirement]. *)
Fixpoint first_service (reqs : list AnyRequirement) : option ServiceRequirement :=
  match reqs with
  | [] => None
  | ServiceKind req :: _ => Some req
  | EnvVarKind _ :: rest => first_service rest
  end.

(** [_load_service_requirement], on the project that [Project(dirname)]
    loaded. *)
Definition _load_service_requirement (project : Project)
  : ServiceRequirement + TestError :=
  if bool_decide (problems project = []) then
    match first_service (requirements project) with
    | Some req => inl req
    | None => inr (RuntimeError "no ServiceRequirement found")
    end
  else inr AssertionError.

Definition is_service (req : AnyRequirement) : bool :=
  match req with
  | ServiceKind _ => true
  | EnvVarKind _ => false
  end.

(* ===================================================================== *)
(** ** Sample data                                                        *)
(* ===================================================================== *)

Definition sample_registry : PluginRegistry :=
  mkRegistry (fun _ _ => [mkProvider "EnvVarProvider"]).

Definition sample_heap : heap :=
  {[ 1%positive := ODict {[ "encrypted" := VBool true; "default" := VRef 2%positive ]};
     2%positive := OList [VStr "a"; VInt 7] ]}.

(** A store with one empty options dict, and one with a list that contains
    itself. *)
Definition plain_heap : heap := {[ 1%positive := ODict ∅ ]}.

Definition cyclic_heap : heap := {[ 1%positive := OList [VInt 1; VRef 1%positive] ]}.

Definition sample_requirement (name : string) : EnvVarRequirement :=
  mkEnvVarRequirement sample_registry 1%positive name.

Definition sample_world (name value : string) : world :=
  World sample_heap {[ name := value ]}.

Definition sample_id (i : nat) : string :=
  "req" +:+ NilZero.string_of_uint (Nat.to_uint i).

(** The status of the tests: [EnvVarRequirement(..., env_var="FOO")] checked
    against an empty environ. *)
Definition sample_status : RequirementStatus :=
  mkRequirementStatus (sample_requirement "FOO") false
    "Environment variable FOO is not set." [mkProvider "EnvVarProvider"].

(** The server of the tests after its first GET. *)
Definition sample_server : UIServer :=
  with_requirements_by_id [(sample_id 0, sample_status)]
    (UIServer_init (_no_op_prepare (mkContext ∅ ∅ [sample_status]))).

(* ===================================================================== *)
(** * Properties                                                          *)
(* ===================================================================== *)

(** ** Strings *)

Lemma substring_all (s : string) : substring 0 (String.length s) s = s.
Proof. induction s as [|c s IH]; simpl; [reflexivity | now rewrite IH]. Qed.

Lemma substring_skip_prefix (p s : string) (k : nat) :
  substring (String.length p) k (p +:+ s) = substring 0 k s.
Proof. induction p as [|c p IH]; simpl; [reflexivity | exact IH]. Qed.

Lemma string_length_app (p s : string) :
  String.length (p +:+ s) = (String.length p + String.length s)%nat.
Proof. induction p as [|c p IH]; simpl; [reflexivity | now rewrite IH]. Qed.

Lemma substring_split (s : string) (a : nat) :
  (a <= String.length s)%nat ->
  s = substring 0 a s +:+ substring a (String.length s - a) s.
Proof.
  revert a. induction s as [|c s IH]; intros a Ha; simpl in *.
  - destruct a; reflexivity.
  - destruct a as [|a]; simpl.
    + now rewrite substring_all.
    + change (String c s = String c (substring 0 a s +:+ substring a (String.length s - a) s)).
      f_equal. apply IH. lia.
Qed.

(** [endswith] holds exactly when the string is some prefix followed by the
    suffix. *)
Lemma endswith_spec (s suffix : string) :
  endswith s suffix = true <-> exists p, s = p +:+ suffix.
Proof.
  unfold endswith. split.
  - destruct (Nat.leb_spec (String.length suffix) (String.length s)) as [Hle|Hlt];
      [|discriminate].
    intros Heq. apply String.eqb_eq in Heq.
    exists (substring 0 (String.length s - String.length suffix) s).
    rewrite (substring_split s (String.length s - String.length suffix)) at 1 by lia.
    f_equal.
    replace (String.length s - (String.length s - String.length suffix))%nat
      with (String.length suffix) by lia.
    exact Heq.
  - intros [p ->]. rewrite string_length_app.
    destruct (Nat.leb_spec (String.length suffix) (String.length p + String.length suffix))
      as [_|Hlt]; [|lia].
    replace (String.length p + String.length suffix - String.length suffix)%nat
      with (String.length p) by lia.
    rewrite substring_skip_prefix, substring_all. apply String.eqb_refl.
Qed.

Lemma any_spec {A} (p : A -> bool) (xs : list A) :
  any p xs = true <-> exists x, In x xs /\ p x = true.
Proof. unfold any. apply existsb_exists. Qed.

(** ** The store *)

Lemma heap_closed_spec (h : heap) :
  heap_closed h <->
  forall l o l', h !! l = Some o -> In l' (obj_refs o) -> is_Some (h !! l').
Proof.
  unfold heap_closed. rewrite map_Forall_lookup. split.
  - intros H l o l' Ho Hin. specialize (H l o Ho).
    rewrite Forall_forall in H. apply H. now apply list_elem_of_In.
  - intros H l o Ho. apply Forall_forall. intros l' Hin.
    apply (H l o l' Ho). now apply list_elem_of_In.
Qed.

(** ** The monad *)

Lemma bind_Some {A B} (m : M A) (k : A -> M B) (w : world) (r : B * world) :
  (m ≫= k) w = Some r <-> exists a w', m w = Some (a, w') /\ k a w' = Some r.
Proof.
  unfold mbind, M_bind, bind. split.
  - destruct (m w) as [[a w']|]; [eauto | discriminate].
  - intros (a & w' & -> & Hk). exact Hk.
Qed.

Lemma bind_eq {A B} (m : M A) (k : A -> M B) (w w' : world) (a : A) :
  m w = Some (a, w') -> (m ≫= k) w = k a w'.
Proof. unfold mbind, M_bind, bind. now intros ->. Qed.

(** [run H] executes the first statement of a sequence by the equation [H]
    of its run. *)
Tactic Notation "run" open_constr(H) := rewrite (bind_eq _ _ _ _ _ H).
Tactic Notation "run" open_constr(H) "in" hyp(H') :=
  rewrite (bind_eq _ _ _ _ _ H) in H'.

(** The primitives that read, and what is built from them, leave the state
    as it is. *)
Lemma read_only_ret {A} (a : A) : read_only (ret a).
Proof. intros w b w' H. unfold ret in H. congruence. Qed.

Lemma read_only_raise {A} : read_only (@raise A).
Proof. intros w b w' H. discriminate. Qed.

Lemma read_only_bind {A B} (m : M A) (k : A -> M B) :
  read_only m -> (forall a, read_only (k a)) -> read_only (m ≫= k).
Proof.
  intros Hm Hk w b w' H. apply bind_Some in H as (a & w1 & H1 & H2).
  apply Hm in H1 as ->. now apply Hk in H2.
Qed.

Lemma read_only_get_object (l : loc) : read_only (get_object l).
Proof.
  intros w a w' H. unfold get_object in H.
  destruct (objects w !! l); congruence.
Qed.

Lemma read_only_environ_get (key : string) : read_only (environ_get key).
Proof. intros w a w' H. unfold environ_get in H. congruence. Qed.

Create HintDb read_only.
#[local] Hint Resolve read_only_ret read_only_raise read_only_get_object
  read_only_environ_get : read_only.

(** Splits a sequence into its statements; what is left is a branch of the
    code on a value just read. *)
Ltac read_only_steps :=
  repeat first [ solve [auto with read_only]
               | apply read_only_bind; [solve [auto with read_only] | intros ?] ].

Lemma read_only_get_dict (l : loc) : read_only (get_dict l).
Proof. unfold get_dict. read_only_steps. destruct a; read_only_steps. Qed.
#[local] Hint Resolve read_only_get_dict : read_only.

Lemma read_only_truthy (v : val) : read_only (truthy v).
Proof. destruct v; cbn [truthy]; read_only_steps. destruct a; read_only_steps. Qed.
#[local] Hint Resolve read_only_truthy : read_only.

Lemma read_only_encrypted (self : EnvVarRequirement) : read_only (encrypted self).
Proof.
  unfold encrypted. read_only_steps.
  destruct (dict_contains a "encrypted"); [|read_only_steps].
  destruct (a !! "encrypted"); read_only_steps.
Qed.
#[local] Hint Resolve read_only_encrypted : read_only.

Lemma read_only_get_value_of_env_var (self : EnvVarRequirement) :
  read_only (_get_value_of_env_var self).
Proof. unfold _get_value_of_env_var. read_only_steps. Qed.
#[local] Hint Resolve read_only_get_value_of_env_var : read_only.

Lemma read_only_set_message (self : EnvVarRequirement) : read_only (_set_message self).
Proof. unfold _set_message. read_only_steps. destruct a0; read_only_steps. Qed.
#[local] Hint Resolve read_only_set_message : read_only.

Lemma read_only_check_status (self : EnvVarRequirement) : read_only (check_status self).
Proof. unfold check_status. read_only_steps. destruct a; read_only_steps. Qed.

(** ** Environment variable requirements *)

Lemma get_value_of_env_var_eq (self : EnvVarRequirement) (w : world) :
  _get_value_of_env_var self w =
  Some (match environ w !! env_var self with
        | Some s => if String.eqb s "" then None else Some s
        | None => None
        end, w).
Proof. reflexivity. Qed.

Lemma check_status_unset (self : EnvVarRequirement) (w : world) :
  _get_value_of_env_var self w = Some (None, w) ->
  check_status self w =
  Some (mkRequirementStatus self false (_unset_message self)
          (find_providers_by_env_var (registry self) (options self) (env_var self)), w).
Proof. intros H. unfold check_status. now run H. Qed.

Lemma check_status_set (self : EnvVarRequirement) (w : world) (s d : string) :
  _get_value_of_env_var self w = Some (Some s, w) ->
  _set_message self w = Some (d, w) ->
  check_status self w =
  Some (mkRequirementStatus self true d
          (find_providers_by_env_var (registry self) (options self) (env_var self)), w).
Proof.
  intros H Hd. unfold check_status. run H.
  now run Hd.
Qed.

Lemma truthy_total (w : world) (v : val) :
  (forall l, v = VRef l -> is_Some (objects w !! l)) ->
  exists b, truthy v w = Some (b, w).
Proof.
  intros Hv. destruct v; simpl; unfold ret; eauto.
  destruct (Hv l eq_refl) as [o Ho].
  assert (Hg : get_object l w = Some (o, w)) by (unfold get_object; now rewrite Ho).
  run Hg. destruct o; unfold ret; eauto.
Qed.

Lemma dict_lookup_vals (items : gmap string val) (key : string) (v : val) :
  items !! key = Some v -> In v (obj_vals (ODict items)).
Proof.
  intros H. simpl. apply in_map_iff. exists (key, v). split; [reflexivity|].
  apply list_elem_of_In. now apply elem_of_map_to_list.
Qed.

Lemma encrypted_eq (self : EnvVarRequirement) (w : world) (opts : gmap string val) :
  objects w !! options self = Some (ODict opts) ->
  encrypted self w =
  Some (match opts !! "encrypted" with
        | Some v => v
        | None => VBool (any (fun suffix => endswith (env_var self) suffix) _secret_suffixes)
        end, w).
Proof.
  intros Ho. unfold encrypted.
  assert (Hg : get_dict (options self) w = Some (opts, w)).
  { unfold get_dict, get_object, mbind, M_bind, bind. now rewrite Ho. }
  run Hg. unfold dict_contains.
  destruct (opts !! "encrypted"); reflexivity.
Qed.

Lemma encrypted_truth_total (self : EnvVarRequirement) (w : world) :
  wf_requirement w self -> exists b, encrypted_truth self w = Some (b, w).
Proof.
  intros [Hc [opts Ho]]. unfold encrypted_truth.
  run (encrypted_eq self w opts Ho).
  apply truthy_total. intros l Hl.
  destruct (opts !! "encrypted") as [v|] eqn:Hd; [|discriminate].
  subst v. apply (proj1 (heap_closed_spec _) Hc _ _ l Ho). unfold obj_refs. apply in_flat_map.
  exists (VRef l). split; [exact (dict_lookup_vals _ _ _ Hd) | now left].
Qed.

Lemma set_message_eq (self : EnvVarRequirement) (w : world) (b : bool) :
  encrypted_truth self w = Some (b, w) ->
  _set_message self w =
  if b then Some ("Environment variable " +:+ env_var self +:+ " is set.", w)
  else match _get_value_of_env_var self w with
       | Some (value, w') =>
           Some ("Environment variable " +:+ env_var self +:+ " set to '"
                 +:+ format_value value +:+ "'", w')
       | None => None
       end.
Proof.
  unfold encrypted_truth, _set_message. intros H.
  apply bind_Some in H as (e & w1 & He & Hb).
  pose proof (read_only_encrypted self _ _ _ He) as ->.
  run He. run Hb.
  destruct b; reflexivity.
Qed.

Lemma check_status_total (self : EnvVarRequirement) (w : world) :
  wf_requirement w self -> exists st, check_status self w = Some (st, w).
Proof.
  intros Hwf. pose proof (get_value_of_env_var_eq self w) as Hv.
  destruct (environ w !! env_var self) as [s|] eqn:He.
  - destruct (String.eqb s "") eqn:Hs.
    + eexists. now apply check_status_unset.
    + destruct (encrypted_truth_total self w Hwf) as [b Hb].
      pose proof (set_message_eq self w b Hb) as Hm.
      rewrite Hv in Hm. destruct b; eexists; eapply check_status_set; eauto.
  - eexists. now apply check_status_unset.
Qed.

(** C1: a variable set to the empty string is reported as not provided,
    with the same [has_been_provided] and [status_description] as in any
    environment where the variable is absent. *)
Theorem check_status_empty_string_is_unset
    (self : EnvVarRequirement) (w w' : world) :
  environ w !! env_var self = Some "" ->
  environ w' !! env_var self = None ->
  exists st st',
    check_status self w = Some (st, w) /\
    check_status self w' = Some (st', w') /\
    has_been_provided st = false /\
    has_been_provided st' = false /\
    status_description st = status_description st'.
Proof.
  intros He Ha.
  assert (H1 : _get_value_of_env_var self w = Some (None, w))
    by (rewrite get_value_of_env_var_eq, He; reflexivity).
  assert (H2 : _get_value_of_env_var self w' = Some (None, w'))
    by (rewrite get_value_of_env_var_eq, Ha; reflexivity).
  do 2 eexists. split; [exact (check_status_unset _ _ H1)|].
  split; [exact (check_status_unset _ _ H2)|]. simpl. auto.
Qed.

(** [truthy] computes the truth value of Python. *)
Lemma truthy_python_true (v : val) (w : world) (b : bool) :
  truthy v w = Some (b, w) -> (b = true <-> python_true (objects w) v).
Proof.
  destruct v as [| b0 | z | s | l]; cbn [truthy]; unfold ret.
  - intros [= <-]. split; [discriminate | inversion 1].
  - intros [= <-]. split; [intros ->; constructor | now inversion 1].
  - intros [= <-]. destruct (Z.eqb_spec z 0) as [-> | Hz]; cbn [negb].
    + split; [discriminate | inversion 1; contradiction].
    + split; [intros _; now constructor | reflexivity].
  - intros [= <-]. destruct (String.eqb_spec s "") as [-> | Hs]; cbn [negb].
    + split; [discriminate | inversion 1; contradiction].
    + split; [intros _; now constructor | reflexivity].
  - intros H. apply bind_Some in H as (o & w1 & Ho & Hb).
    pose proof (read_only_get_object l _ _ _ Ho) as ->.
    unfold get_object in Ho. destruct (objects w !! l) as [o'|] eqn:Hl; [|discriminate].
    injection Ho as ->. destruct o as [items | elems]; unfold ret in Hb; injection Hb as <-.
    + destruct (Nat.eqb_spec (size items) 0) as [Hz | Hz]; cbn [negb].
      * apply map_size_empty_iff in Hz as ->.
        split; [discriminate|]. inversion 1; congruence.
      * split; [|reflexivity]. intros _. apply (true_dict _ l items Hl).
        intros ->. apply Hz. apply map_size_empty.
    + destruct elems as [|x elems]; cbn.
      * split; [discriminate|]. inversion 1; congruence.
      * split; [|reflexivity]. intros _. now apply (true_list _ l (x :: elems) Hl).
Qed.

(** C2: [encrypted] is true exactly when the option [encrypted] is present
    and its value is true for Python, or the option is absent and the name
    of the variable ends with [_PASSWORD], [_ENCRYPTED], [_SECRET_KEY] or
    [_SECRET].  When the option is present the property is its value
    itself. *)
Theorem encrypted_iff_option_or_suffix
    (self : EnvVarRequirement) (w : world) (opts : gmap string val) :
  heap_closed (objects w) ->
  objects w !! options self = Some (ODict opts) ->
  exists e b,
    encrypted self w = Some (e, w) /\
    truthy e w = Some (b, w) /\
    encrypted_truth self w = Some (b, w) /\
    (forall v, opts !! "encrypted" = Some v -> e = v) /\
    (b = true <->
     (exists v, opts !! "encrypted" = Some v /\ python_true (objects w) v) \/
     (opts !! "encrypted" = None /\
      exists p, env_var self = p +:+ "_PASSWORD" \/
                env_var self = p +:+ "_ENCRYPTED" \/
                env_var self = p +:+ "_SECRET_KEY" \/
                env_var self = p +:+ "_SECRET")).
Proof.
  intros Hc Ho.
  destruct (encrypted_truth_total self w (conj Hc (ex_intro _ opts Ho))) as [b Hb].
  pose proof (encrypted_eq self w opts Ho) as He.
  unfold encrypted_truth in Hb. pose proof Hb as Ht. run He in Ht.
  eexists _, b. split; [exact He|]. split; [exact Ht|]. split; [exact Hb|].
  pose proof (truthy_python_true _ w b Ht) as Hpy.
  destruct (opts !! "encrypted") as [v|] eqn:Hd.
  - split; [now intros v' [= <-]|]. rewrite Hpy. split.
    + intros H. left. eauto.
    + intros [(v' & [= <-] & Hv) | [[=] _]]. exact Hv.
  - split; [discriminate|]. clear Hpy.
    cbn [truthy] in Ht. unfold ret in Ht.
    assert (Hbe : b = any (fun suffix => endswith (env_var self) suffix) _secret_suffixes)
      by congruence.
    clear Ht Hb He. rewrite Hbe. split.
    + intros Hany. right. split; [reflexivity|].
      apply any_spec in Hany as (suffix & Hin & Hs).
      apply endswith_spec in Hs as [p Hp]. exists p.
      destruct Hin as [<- | [<- | [<- | [<- | []]]]]; auto.
    + intros [(v' & [=] & _) | (_ & p & Hp)].
      apply any_spec.
      destruct Hp as [Hp | [Hp | [Hp | Hp]]];
        [exists "_PASSWORD" | exists "_ENCRYPTED" | exists "_SECRET_KEY" | exists "_SECRET"];
        (split; [cbn; auto | apply endswith_spec; eauto]).
Qed.

(** C6: [check_status] leaves [environ] (and the whole store) as it found
    it, and a second call returns the same status; on a constructed
    requirement it does return. *)
Theorem check_status_does_not_mutate (self : EnvVarRequirement) (w : world) :
  (forall st w1,
      check_status self w = Some (st, w1) ->
      environ w1 = environ w /\ w1 = w /\
      exists st2 w2,
        check_status self w1 = Some (st2, w2) /\
        environ w2 = environ w /\
        has_been_provided st2 = has_been_provided st /\
        status_description st2 = status_description st) /\
  (wf_requirement w self -> exists st, check_status self w = Some (st, w)).
Proof.
  split.
  - intros st w1 H. pose proof (read_only_check_status self _ _ _ H) as ->.
    split; [reflexivity|]. split; [reflexivity|].
    exists st, w. auto.
  - apply check_status_total.
Qed.

Lemma encrypted_truth_same_objects (self : EnvVarRequirement) (w w' : world) (b : bool) :
  objects w' = objects w ->
  encrypted_truth self w = Some (b, w) ->
  encrypted_truth self w' = Some (b, w').
Proof.
  intros Hobj H. unfold encrypted_truth in *.
  apply bind_Some in H as (e & w1 & He & Hb).
  pose proof (read_only_encrypted self _ _ _ He) as ->.
  assert (He' : encrypted self w' = Some (e, w')).
  { revert He. unfold encrypted, get_dict, get_object, mbind, M_bind, bind.
    rewrite Hobj. destruct (objects w !! options self) as [[opts|elems]|]; simpl; try discriminate.
    destruct (dict_contains opts "encrypted").
    - destruct (opts !! "encrypted"); simpl; unfold ret, raise; congruence.
    - unfold ret. congruence. }
  run He'.
  revert Hb. destruct e; simpl; unfold ret; try congruence.
  unfold get_object, mbind, M_bind, bind. rewrite Hobj.
  destruct (objects w !! l) as [[items|elems]|]; unfold ret; congruence.
Qed.

Lemma check_status_encrypted_set (self : EnvVarRequirement) (w : world) (s : string) :
  encrypted_truth self w = Some (true, w) ->
  environ w !! env_var self = Some s ->
  s <> "" ->
  check_status self w =
  Some (mkRequirementStatus self true
          ("Environment variable " +:+ env_var self +:+ " is set.")
          (find_providers_by_env_var (registry self) (options self) (env_var self)), w).
Proof.
  intros Henc He Hs. apply (check_status_set self w s).
  - rewrite get_value_of_env_var_eq, He.
    destruct (String.eqb_spec s ""); [contradiction | reflexivity].
  - now rewrite (set_message_eq self w true Henc).
Qed.

(** C10: for an encrypted variable set to a non-empty value the description
    is the fixed text naming the variable only; it is the same text whatever
    the value is. *)
Theorem encrypted_status_independent_of_value
    (self : EnvVarRequirement) (w w' : world) (s s' : string) :
  encrypted_truth self w = Some (true, w) ->
  objects w' = objects w ->
  environ w !! env_var self = Some s -> s <> "" ->
  environ w' !! env_var self = Some s' -> s' <> "" ->
  exists st st',
    check_status self w = Some (st, w) /\
    check_status self w' = Some (st', w') /\
    status_description st = "Environment variable " +:+ env_var self +:+ " is set." /\
    status_description st' = status_description st.
Proof.
  intros Henc Hobj He Hs He' Hs'.
  pose proof (encrypted_truth_same_objects self w w' true Hobj Henc) as Henc'.
  do 2 eexists.
  split; [exact (check_status_encrypted_set self w s Henc He Hs)|].
  split; [exact (check_status_encrypted_set self w' s' Henc' He' Hs')|].
  split; reflexivity.
Qed.

Lemma check_status_empty_string_is_unset_witness :
  exists st st',
    check_status (sample_requirement "FOO") (sample_world "FOO" "")
      = Some (st, sample_world "FOO" "") /\
    check_status (sample_requirement "FOO") (World sample_heap ∅)
      = Some (st', World sample_heap ∅) /\
    has_been_provided st = false /\
    has_been_provided st' = false /\
    status_description st = status_description st'.
Proof.
  apply (check_status_empty_string_is_unset
           (sample_requirement "FOO") (sample_world "FOO" "") (World sample_heap ∅));
    reflexivity.
Defined.

Lemma encrypted_iff_option_or_suffix_witness :
  (exists e b,
     encrypted (sample_requirement "DB_PASSWORD") (World plain_heap ∅)
       = Some (e, World plain_heap ∅) /\
     truthy e (World plain_heap ∅) = Some (b, World plain_heap ∅) /\
     b = true) /\
  (exists e b,
     encrypted (sample_requirement "FOO") (World plain_heap ∅)
       = Some (e, World plain_heap ∅) /\
     truthy e (World plain_heap ∅) = Some (b, World plain_heap ∅) /\
     b = false) /\
  (exists e b,
     encrypted (sample_requirement "FOO") (sample_world "FOO" "x")
       = Some (e, sample_world "FOO" "x") /\
     truthy e (sample_world "FOO" "x") = Some (b, sample_world "FOO" "x") /\
     b = true).
Proof.
  assert (Hplain : heap_closed plain_heap)
    by (apply (bool_decide_unpack (heap_closed plain_heap)); vm_compute; exact I).
  assert (Hsample : heap_closed sample_heap)
    by (apply (bool_decide_unpack (heap_closed sample_heap)); vm_compute; exact I).
  split; [|split].
  - (* no option, the name ends with _PASSWORD *)
    destruct (encrypted_iff_option_or_suffix (sample_requirement "DB_PASSWORD")
                (World plain_heap ∅) ∅ Hplain)
      as (e & b & He & Ht & _ & _ & Hiff); [reflexivity|].
    exists e, b. split; [exact He|]. split; [exact Ht|].
    apply Hiff. right. split; [reflexivity|]. exists "DB". left. reflexivity.
  - (* no option, no secret suffix *)
    destruct (encrypted_iff_option_or_suffix (sample_requirement "FOO")
                (World plain_heap ∅) ∅ Hplain)
      as (e & b & He & Ht & _ & _ & Hiff); [reflexivity|].
    exists e, b. split; [exact He|]. split; [exact Ht|].
    destruct b; [|reflexivity].
    destruct (proj1 Hiff eq_refl) as [(v & Hv & _) | (_ & p & Hp)]; [discriminate Hv|].
    exfalso.
    assert (Hlen : forall suffix, env_var (sample_requirement "FOO") = p +:+ suffix ->
                                  String.length suffix <= 3).
    { intros suffix Hs. apply (f_equal String.length) in Hs.
      rewrite string_length_app in Hs. cbn in Hs. lia. }
    destruct Hp as [Hp | [Hp | [Hp | Hp]]]; apply Hlen in Hp; cbn in Hp; lia.
  - (* the option is present and true *)
    destruct (encrypted_iff_option_or_suffix (sample_requirement "FOO")
                (sample_world "FOO" "x")
                {[ "encrypted" := VBool true; "default" := VRef 2%positive ]} Hsample)
      as (e & b & He & Ht & _ & _ & Hiff); [reflexivity|].
    exists e, b. split; [exact He|]. split; [exact Ht|].
    apply Hiff. left. exists (VBool true). split; [reflexivity | constructor].
Defined.

Lemma check_status_does_not_mutate_witness :
  exists st,
    check_status (sample_requirement "FOO") (sample_world "FOO" "x")
      = Some (st, sample_world "FOO" "x").
Proof.
  apply (proj2 (check_status_does_not_mutate
                  (sample_requirement "FOO") (sample_world "FOO" "x"))).
  split.
  - apply (bool_decide_unpack (heap_closed sample_heap)). vm_compute. exact I.
  - eexists. reflexivity.
Defined.

Lemma encrypted_status_independent_of_value_witness :
  exists st st',
    check_status (sample_requirement "DB_PASSWORD") (sample_world "DB_PASSWORD" "hunter2")
      = Some (st, sample_world "DB_PASSWORD" "hunter2") /\
    check_status (sample_requirement "DB_PASSWORD") (sample_world "DB_PASSWORD" "swordfish")
      = Some (st', sample_world "DB_PASSWORD" "swordfish") /\
    status_description st = "Environment variable DB_PASSWORD is set." /\
    status_description st' = status_description st.
Proof.
  apply (encrypted_status_independent_of_value
           (sample_requirement "DB_PASSWORD")
           (sample_world "DB_PASSWORD" "hunter2")
           (sample_world "DB_PASSWORD" "swordfish") "hunter2" "swordfish");
    first [reflexivity | discriminate].
Defined.

(** ** deepcopy *)

Lemma run_get_object (h : heap) (e : gmap string string) (l : loc) (o : obj) :
  h !! l = Some o -> get_object l (World h e) = Some (o, World h e).
Proof. intros H. unfold get_object. simpl. now rewrite H. Qed.

Lemma run_alloc (h : heap) (e : gmap string string) (o : obj) :
  alloc o (World h e) = Some (fresh (dom h), World (<[fresh (dom h) := o]> h) e).
Proof. reflexivity. Qed.

Lemma run_dict_setitem (h : heap) (e : gmap string string) (y : loc)
    (d : gmap string val) (k : string) (v : val) :
  h !! y = Some (ODict d) ->
  dict_setitem y k v (World h e) = Some (tt, World (<[y := ODict (<[k := v]> d)]> h) e).
Proof.
  intros H. unfold dict_setitem.
  assert (Hg : get_dict y (World h e) = Some (d, World h e)).
  { unfold get_dict. now run (run_get_object h e y _ H). }
  now run Hg.
Qed.

Lemma run_list_append (h : heap) (e : gmap string string) (y : loc)
    (elems : list val) (v : val) :
  h !! y = Some (OList elems) ->
  list_append y v (World h e) = Some (tt, World (<[y := OList (elems ++ [v])]> h) e).
Proof.
  intros H. unfold list_append.
  run (run_get_object h e y _ H). reflexivity.
Qed.

Lemma val_rel_mono (m m' : gmap loc loc) (v v' : val) :
  m ⊆ m' -> val_rel m v v' -> val_rel m' v v'.
Proof.
  intros Hsub. destruct v; simpl; auto.
  intros (l' & Hl & ->). exists l'. split; [|reflexivity].
  eapply lookup_weaken; eauto.
Qed.

Lemma obj_rel_mono (m m' : gmap loc loc) (o o' : obj) :
  m ⊆ m' -> obj_rel m o o' -> obj_rel m' o o'.
Proof.
  intros Hsub. destruct o as [d|es], o' as [d'|es']; simpl; auto.
  - intros H k. specialize (H k).
    destruct H; constructor. eapply val_rel_mono; eauto.
  - intros H. eapply Forall2_impl; [exact H|].
    intros v v'. now apply val_rel_mono.
Qed.

Lemma copying_dom (h0 : heap) (P : gset loc) (h : heap) (m : gmap loc loc) :
  copying h0 P h m -> dom h0 ⊆ dom h.
Proof.
  intros Hc l Hl. apply elem_of_dom.
  rewrite (copying_frame _ _ _ _ Hc l Hl). now apply elem_of_dom.
Qed.

Lemma copying_alloc (h0 : heap) (P : gset loc) (h : heap) (m : gmap loc loc)
    (l : loc) (o : obj) :
  copying h0 P h m -> m !! l = None -> l ∈ dom h0 ->
  copying h0 (P ∪ {[l]}) (<[fresh (dom h) := o]> h) (<[l := fresh (dom h)]> m).
Proof.
  intros Hc Hl Hin. pose proof (copying_dom _ _ _ _ Hc) as Hdom.
  pose proof (is_fresh (dom h)) as Hfresh.
  set (y := fresh (dom h)) in *.
  assert (Hy0 : y ∉ dom h0) by set_solver.
  assert (Hrange : forall a b, m !! a = Some b -> b <> y).
  { intros a b Hab ->. apply Hfresh. now apply (copying_new _ _ _ _ Hc a). }
  constructor.
  - intros l' Hl'. rewrite lookup_insert_ne by set_solver.
    now apply (copying_frame _ _ _ _ Hc).
  - intros a b Hab. destruct (decide (l = a)) as [<-|Hne].
    + rewrite lookup_insert_eq in Hab. injection Hab as <-.
      split; [exact Hin|]. split; [|exact Hy0].
      apply elem_of_dom. rewrite lookup_insert_eq. eauto.
    + rewrite lookup_insert_ne in Hab by exact Hne.
      destruct (copying_new _ _ _ _ Hc a b Hab) as (Ha & Hb & Hb0).
      split; [exact Ha|]. split; [|exact Hb0].
      rewrite dom_insert. set_solver.
  - intros a1 a2 b H1 H2.
    destruct (decide (l = a1)) as [<-|Hne1], (decide (l = a2)) as [<-|Hne2];
      try reflexivity.
    + rewrite lookup_insert_eq in H1. rewrite lookup_insert_ne in H2 by exact Hne2.
      injection H1 as <-. now destruct (Hrange _ _ H2).
    + rewrite lookup_insert_eq in H2. rewrite lookup_insert_ne in H1 by exact Hne1.
      injection H2 as <-. now destruct (Hrange _ _ H1).
    + rewrite lookup_insert_ne in H1 by exact Hne1.
      rewrite lookup_insert_ne in H2 by exact Hne2.
      exact (copying_inj _ _ _ _ Hc _ _ _ H1 H2).
  - intros a b Hab Hpend.
    assert (Hne : l <> a) by set_solver.
    rewrite lookup_insert_ne in Hab by exact Hne.
    destruct (copying_done _ _ _ _ Hc a b Hab) as (o1 & o2 & H1 & H2 & Hrel);
      [set_solver|].
    exists o1, o2. split; [exact H1|]. split.
    + rewrite lookup_insert_ne; [exact H2|]. intros E. exact (Hrange _ _ Hab (eq_sym E)).
    + eapply obj_rel_mono; [|exact Hrel]. now apply insert_subseteq.
Qed.

Lemma copying_write (h0 : heap) (P : gset loc) (h : heap) (m : gmap loc loc)
    (l y : loc) (o : obj) :
  copying h0 P h m -> m !! l = Some y -> l ∈ P ->
  copying h0 P (<[y := o]> h) m.
Proof.
  intros Hc Hl Hin.
  destruct (copying_new _ _ _ _ Hc l y Hl) as (Hl0 & Hy & Hy0).
  constructor.
  - intros l' Hl'. rewrite lookup_insert_ne by (intros ->; contradiction).
    now apply (copying_frame _ _ _ _ Hc).
  - intros a b Hab. destruct (copying_new _ _ _ _ Hc a b Hab) as (Ha & Hb & Hb0).
    split; [exact Ha|]. split; [|exact Hb0].
    rewrite dom_insert. set_solver.
  - exact (copying_inj _ _ _ _ Hc).
  - intros a b Hab Hpend.
    destruct (copying_done _ _ _ _ Hc a b Hab Hpend) as (o1 & o2 & H1 & H2 & Hrel).
    exists o1, o2. split; [exact H1|]. split; [|exact Hrel].
    rewrite lookup_insert_ne; [exact H2|].
    intros ->. apply Hpend.
    now rewrite (copying_inj _ _ _ _ Hc _ _ _ Hab Hl).
Qed.

Lemma copying_close (h0 : heap) (P : gset loc) (h : heap) (m : gmap loc loc)
    (l y : loc) (o o' : obj) :
  copying h0 (P ∪ {[l]}) h m -> m !! l = Some y ->
  h0 !! l = Some o -> h !! y = Some o' -> obj_rel m o o' ->
  copying h0 P h m.
Proof.
  intros Hc Hl Ho Ho' Hrel. constructor.
  - exact (copying_frame _ _ _ _ Hc).
  - exact (copying_new _ _ _ _ Hc).
  - exact (copying_inj _ _ _ _ Hc).
  - intros a b Hab Hpend. destruct (decide (a = l)) as [->|Hne].
    + assert (b = y) as -> by congruence. eauto.
    + apply (copying_done _ _ _ _ Hc a b Hab). set_solver.
Qed.

Lemma size_unvisited_mono (h0 : heap) (m m' : gmap loc loc) :
  m ⊆ m' -> size (dom h0 ∖ dom m') <= size (dom h0 ∖ dom m).
Proof.
  intros Hsub. apply subseteq_size.
  pose proof (subseteq_dom _ _ Hsub). set_solver.
Qed.

Lemma size_unvisited_insert (h0 : heap) (m : gmap loc loc) (l y : loc) :
  m !! l = None -> l ∈ dom h0 ->
  size (dom h0 ∖ dom (<[l := y]> m)) < size (dom h0 ∖ dom m).
Proof.
  intros Hl Hin. apply subset_size. rewrite dom_insert_L.
  apply not_elem_of_dom in Hl. set_solver.
Qed.

Lemma foldM_copy_item (h0 : heap) (e : gmap string string)
    (dc : val -> gmap loc loc -> M (val * gmap loc loc)) (n : nat)
    (y l : loc) (P : gset loc) :
  deepcopy_ok h0 e dc n -> l ∈ P ->
  forall (its : list (string * val)) (dd dy : gmap string val) (h : heap) (m : gmap loc loc),
    (forall k l', In (k, VRef l') its -> l' ∈ dom h0) ->
    NoDup its.*1 ->
    copying h0 P h m -> m !! l = Some y -> h !! y = Some (ODict dy) ->
    (forall k, option_Forall2 (val_rel m) (dd !! k) (dy !! k)) ->
    size (dom h0 ∖ dom m) < n ->
    exists m' h' dy',
      foldM (copy_item dc y) its m (World h e) = Some (m', World h' e) /\
      m ⊆ m' /\ copying h0 P h' m' /\
      (forall l', l' ∈ dom h -> l' <> y -> h' !! l' = h !! l') /\
      h' !! y = Some (ODict dy') /\
      (forall k, option_Forall2 (val_rel m') ((list_to_map its ∪ dd) !! k) (dy' !! k)).
Proof.
  intros Hdc HlP its.
  induction its as [|[k v] rest IH]; intros dd dy h m Hcl Hnd Hc Hl Hy Hrel Hsize.
  - exists m, h, dy. split; [reflexivity|]. split; [reflexivity|].
    split; [exact Hc|]. split; [auto|]. split; [exact Hy|].
    intros k. rewrite list_to_map_nil, (left_id_L ∅ (∪)). apply Hrel.
  - destruct (Hdc v P h m Hc) as (v' & m1 & h1 & Hrun & Hsub & Hc1 & Hfr & Hv);
      [intros l' ->; apply (Hcl k l'); now left | exact Hsize |].
    assert (Hyd : y ∈ dom h) by (apply elem_of_dom; eauto).
    assert (Hy1 : h1 !! y = Some (ODict dy)) by (rewrite Hfr; auto).
    assert (Hl1 : m1 !! l = Some y) by (eapply lookup_weaken; eauto).
    set (h2 := <[y := ODict (<[k := v']> dy)]> h1).
    destruct (IH (<[k := v]> dd) (<[k := v']> dy) h2 m1)
      as (m' & h' & dy' & Hrun' & Hsub' & Hc' & Hfr' & Hy' & Hrel').
    + intros k0 l' Hin. apply (Hcl k0 l'). now right.
    + now inversion Hnd.
    + unfold h2. eapply copying_write; eauto.
    + exact Hl1.
    + unfold h2. now rewrite lookup_insert_eq.
    + intros k0. destruct (decide (k = k0)) as [<-|Hne].
      * rewrite !lookup_insert_eq. now constructor.
      * rewrite !lookup_insert_ne by exact Hne.
        specialize (Hrel k0). destruct Hrel; constructor.
        eapply val_rel_mono; eauto.
    + eapply Nat.le_lt_trans; [apply size_unvisited_mono; exact Hsub | exact Hsize].
    + exists m', h', dy'. split.
      { assert (Hstep : copy_item dc y (k, v) m (World h e) = Some (m1, World h2 e)).
        { unfold copy_item. cbn [fst snd].
          run Hrun.
          now run (run_dict_setitem h1 e y dy k v' Hy1). }
        cbn [foldM]. now run Hstep. }
      split; [etrans; eauto|]. split; [exact Hc'|]. split.
      { intros l' Hl' Hne. rewrite Hfr'; [|unfold h2; rewrite dom_insert | exact Hne].
        - unfold h2. rewrite lookup_insert_ne by congruence. auto.
        - apply elem_of_union_r. apply elem_of_dom. rewrite Hfr by exact Hl'.
          now apply elem_of_dom. }
      split; [exact Hy'|].
      intros k0. rewrite list_to_map_cons, <- insert_union_l, insert_union_r; [apply Hrel'|].
      apply not_elem_of_list_to_map_1. now inversion Hnd.
Qed.

Lemma foldM_copy_elem (h0 : heap) (e : gmap string string)
    (dc : val -> gmap loc loc -> M (val * gmap loc loc)) (n : nat)
    (y l : loc) (P : gset loc) :
  deepcopy_ok h0 e dc n -> l ∈ P ->
  forall (its done ey : list val) (h : heap) (m : gmap loc loc),
    (forall l', In (VRef l') its -> l' ∈ dom h0) ->
    copying h0 P h m -> m !! l = Some y -> h !! y = Some (OList ey) ->
    Forall2 (val_rel m) done ey ->
    size (dom h0 ∖ dom m) < n ->
    exists m' h' ey',
      foldM (copy_elem dc y) its m (World h e) = Some (m', World h' e) /\
      m ⊆ m' /\ copying h0 P h' m' /\
      (forall l', l' ∈ dom h -> l' <> y -> h' !! l' = h !! l') /\
      h' !! y = Some (OList ey') /\
      Forall2 (val_rel m') (done ++ its) ey'.
Proof.
  intros Hdc HlP its.
  induction its as [|v rest IH]; intros done ey h m Hcl Hc Hl Hy Hrel Hsize.
  - exists m, h, ey. split; [reflexivity|]. split; [reflexivity|].
    split; [exact Hc|]. split; [auto|]. split; [exact Hy|].
    now rewrite app_nil_r.
  - destruct (Hdc v P h m Hc) as (v' & m1 & h1 & Hrun & Hsub & Hc1 & Hfr & Hv);
      [intros l' ->; apply (Hcl l'); now left | exact Hsize |].
    assert (Hyd : y ∈ dom h) by (apply elem_of_dom; eauto).
    assert (Hy1 : h1 !! y = Some (OList ey)) by (rewrite Hfr; auto).
    assert (Hl1 : m1 !! l = Some y) by (eapply lookup_weaken; eauto).
    set (h2 := <[y := OList (ey ++ [v'])]> h1).
    destruct (IH (done ++ [v]) (ey ++ [v']) h2 m1)
      as (m' & h' & ey' & Hrun' & Hsub' & Hc' & Hfr' & Hy' & Hrel').
    + intros l' Hin. apply (Hcl l'). now right.
    + unfold h2. eapply copying_write; eauto.
    + exact Hl1.
    + unfold h2. now rewrite lookup_insert_eq.
    + apply Forall2_app; [|now repeat constructor].
      eapply Forall2_impl; [exact Hrel|]. intros a b. now apply val_rel_mono.
    + eapply Nat.le_lt_trans; [apply size_unvisited_mono; exact Hsub | exact Hsize].
    + exists m', h', ey'. split.
      { assert (Hstep : copy_elem dc y v m (World h e) = Some (m1, World h2 e)).
        { unfold copy_elem.
          run Hrun.
          now run (run_list_append h1 e y ey v' Hy1). }
        cbn [foldM]. now run Hstep. }
      split; [etrans; eauto|]. split; [exact Hc'|]. split.
      { intros l' Hl' Hne. rewrite Hfr'; [|unfold h2; rewrite dom_insert | exact Hne].
        - unfold h2. rewrite lookup_insert_ne by congruence. auto.
        - apply elem_of_union_r. apply elem_of_dom. rewrite Hfr by exact Hl'.
          now apply elem_of_dom. }
      split; [exact Hy'|].
      now rewrite <- app_assoc in Hrel'.
Qed.

Lemma closed_refs_in_dom (h0 : heap) (l l' : loc) (o : obj) :
  heap_closed h0 -> h0 !! l = Some o -> In (VRef l') (obj_vals o) -> l' ∈ dom h0.
Proof.
  intros Hcl Ho Hin. apply elem_of_dom.
  apply (proj1 (heap_closed_spec h0) Hcl l o l' Ho).
  unfold obj_refs. apply in_flat_map. exists (VRef l'). split; [exact Hin | now left].
Qed.

(** With more fuel than old objects left to visit, [deepcopy] returns. *)
Lemma deepcopy_spec (h0 : heap) (e : gmap string string) :
  heap_closed h0 -> forall n, deepcopy_ok h0 e (deepcopy n) n.
Proof.
  intros Hcl n. induction n as [|n IH]; intros x P h m Hc Hx Hsize; [lia|].
  destruct x as [| b | z | s | l];
    try (eexists _, m, h; split; [reflexivity|];
         split; [reflexivity|]; split; [exact Hc|]; split; [auto | reflexivity]).
  destruct (m !! l) as [y|] eqn:Hm.
  { exists (VRef y), m, h. split; [simpl; now rewrite Hm|].
    split; [reflexivity|]. split; [exact Hc|]. split; [auto|].
    simpl. eauto. }
  assert (Hl0 : l ∈ dom h0) by auto.
  destruct (proj1 (elem_of_dom h0 l) Hl0) as [o Ho].
  assert (Hlh : h !! l = Some o) by (rewrite (copying_frame _ _ _ _ Hc); auto).
  pose proof (is_fresh (dom h)) as Hfresh.
  pose proof (copying_alloc h0 P h m l) as Halloc.
  pose proof (size_unvisited_insert h0 m l (fresh (dom h)) Hm Hl0) as Hlt.
  set (y := fresh (dom h)) in *.
  assert (Hm1 : (<[l := y]> m) !! l = Some y) by apply lookup_insert_eq.
  assert (HlP : l ∈ P ∪ {[l]}) by set_solver.
  assert (Hsize1 : size (dom h0 ∖ dom (<[l := y]> m)) < n) by lia.
  assert (Hunfold : deepcopy (S n) (VRef l) m (World h e) =
                    match o with
                    | ODict items =>
                        (memo' ← foldM (copy_item (deepcopy n) y)
                                   (map_to_list items) (<[l := y]> m);
                         ret (VRef y, memo')) (World (<[y := ODict ∅]> h) e)
                    | OList elems =>
                        (memo' ← foldM (copy_elem (deepcopy n) y)
                                   elems (<[l := y]> m);
                         ret (VRef y, memo')) (World (<[y := OList []]> h) e)
                    end).
  { cbn [deepcopy]. rewrite Hm.
    run (run_get_object h e l o Hlh).
    destruct o; now run (run_alloc h e _). }
  rewrite Hunfold. clear Hunfold.
  destruct o as [d|es].
  - destruct (foldM_copy_item h0 e (deepcopy n) n y l (P ∪ {[l]}) IH HlP
                (map_to_list d) ∅ ∅ (<[y := ODict ∅]> h) (<[l := y]> m))
      as (m' & h' & dy' & Hrun & Hsub & Hc' & Hfr & Hy & Hrel).
    + intros k l' Hin. apply (closed_refs_in_dom h0 l l' (ODict d) Hcl Ho).
      simpl. apply in_map_iff. exists (k, VRef l'). auto.
    + apply NoDup_fst_map_to_list.
    + now apply Halloc.
    + exact Hm1.
    + apply lookup_insert_eq.
    + intros k. rewrite !lookup_empty. constructor.
    + exact Hsize1.
    + assert (Hly : m' !! l = Some y) by (eapply lookup_weaken; eauto).
      exists (VRef y), m', h'. split; [now run Hrun|].
      split; [etrans; [apply insert_subseteq; exact Hm | exact Hsub]|].
      split.
      { apply (copying_close h0 P h' m' l y (ODict d) (ODict dy') Hc' Hly Ho Hy).
        intros k. specialize (Hrel k).
        now rewrite list_to_map_to_list, (right_id_L ∅ (∪)) in Hrel. }
      split; [|simpl; eauto].
      intros l' Hl'. assert (l' <> y) by (intros ->; contradiction).
      rewrite Hfr; [now rewrite lookup_insert_ne by congruence | | assumption].
      rewrite dom_insert. set_solver.
  - destruct (foldM_copy_elem h0 e (deepcopy n) n y l (P ∪ {[l]}) IH HlP
                es [] [] (<[y := OList []]> h) (<[l := y]> m))
      as (m' & h' & ey' & Hrun & Hsub & Hc' & Hfr & Hy & Hrel).
    + intros l' Hin. exact (closed_refs_in_dom h0 l l' (OList es) Hcl Ho Hin).
    + now apply Halloc.
    + exact Hm1.
    + apply lookup_insert_eq.
    + constructor.
    + exact Hsize1.
    + assert (Hly : m' !! l = Some y) by (eapply lookup_weaken; eauto).
      exists (VRef y), m', h'. split; [now run Hrun|].
      split; [etrans; [apply insert_subseteq; exact Hm | exact Hsub]|].
      split.
      { exact (copying_close h0 P h' m' l y (OList es) (OList ey') Hc' Hly Ho Hy Hrel). }
      split; [|simpl; eauto].
      intros l' Hl'. assert (l' <> y) by (intros ->; contradiction).
      rewrite Hfr; [now rewrite lookup_insert_ne by congruence | | assumption].
      rewrite dom_insert. set_solver.
Qed.

(** ** The options of a requirement are a private copy *)

Lemma val_rel_ref_inv (m : gmap loc loc) (v : val) (b : loc) :
  val_rel m v (VRef b) -> exists a, v = VRef a /\ m !! a = Some b.
Proof.
  destruct v; simpl; try discriminate.
  intros (l' & Hl & [= ->]). eauto.
Qed.

Lemma obj_rel_refs (m : gmap loc loc) (o o' : obj) (b : loc) :
  obj_rel m o o' -> In (VRef b) (obj_vals o') ->
  exists a, In (VRef a) (obj_vals o) /\ m !! a = Some b.
Proof.
  destruct o as [d|es], o' as [d'|es']; simpl; try contradiction.
  - intros Hrel Hin. apply in_map_iff in Hin as ([k v] & Hv & Hin).
    simpl in Hv. subst v.
    apply list_elem_of_In, elem_of_map_to_list in Hin.
    specialize (Hrel k). rewrite Hin in Hrel. inversion Hrel as [v v' Hvv Hd |]; subst.
    apply val_rel_ref_inv in Hvv as (a & -> & Ha). exists a. split; [|exact Ha].
    apply in_map_iff. exists (k, VRef a). split; [reflexivity|].
    apply list_elem_of_In, elem_of_map_to_list. now symmetry.
  - intros Hrel Hin. induction Hrel as [|v v' es es' Hvv _ IH]; [contradiction|].
    destruct Hin as [->|Hin].
    + apply val_rel_ref_inv in Hvv as (a & -> & Ha). exists a. split; [now left | exact Ha].
    + destruct (IH Hin) as (a & Ha & Hm). exists a. split; [now right | exact Hm].
Qed.

Lemma in_obj_refs (o : obj) (l : loc) : In l (obj_refs o) <-> In (VRef l) (obj_vals o).
Proof.
  unfold obj_refs. rewrite in_flat_map. split.
  - intros (v & Hv & Hl). destruct v; simpl in Hl; try contradiction.
    destruct Hl as [->|[]]. exact Hv.
  - intros H. exists (VRef l). split; [exact H | now left].
Qed.

(** Everything reachable from a copied object is a copied object. *)
Lemma reachable_in_range (m : gmap loc loc) (h h' : heap) :
  (forall a b, m !! a = Some b ->
     exists o o', h !! a = Some o /\ h' !! b = Some o' /\ obj_rel m o o') ->
  forall y l', reachable h' y l' ->
    (exists a, m !! a = Some y) -> exists a, m !! a = Some l'.
Proof.
  intros Hdone y l' Hreach. induction Hreach as [l | l l1 l2 o Ho Hin _ IH]; [auto|].
  intros (a & Ha). apply IH.
  destruct (Hdone a l Ha) as (oa & o' & _ & Ho' & Hrel).
  assert (o' = o) as -> by congruence.
  apply in_obj_refs in Hin.
  destruct (obj_rel_refs m oa o l1 Hrel Hin) as (a1 & _ & Ha1). eauto.
Qed.

(** A store that agrees on the objects reachable from [y] has the same
    objects reachable from [y]. *)
Lemma reachable_agree (h h' : heap) (y : loc) :
  (forall l, reachable h y l -> h' !! l = h !! l) ->
  forall l, reachable h y l -> reachable h' y l.
Proof.
  intros Hag l Hreach. revert Hag.
  induction Hreach as [l | l l1 l2 o Ho Hin Hreach IH]; intros Hag; [constructor|].
  apply (reach_step h' l l1 l2 o); [rewrite Hag; [exact Ho | constructor] | exact Hin |].
  apply IH. intros l3 H3. apply Hag. eapply reach_step; eauto.
Qed.

Lemma obj_rel_size (m : gmap loc loc) (o o' : obj) :
  obj_rel m o o' ->
  length (obj_vals o) = length (obj_vals o').
Proof.
  destruct o as [d|es], o' as [d'|es']; simpl; try contradiction.
  - intros Hrel. rewrite !length_map, !length_map_to_list.
    rewrite <- !size_dom. f_equal. apply set_eq. intros k.
    rewrite !elem_of_dom. specialize (Hrel k).
    destruct Hrel; split; intros [? ?]; eauto; discriminate.
  - apply Forall2_length.
Qed.

Lemma truthy_ref (w : world) (l : loc) (o : obj) :
  objects w !! l = Some o ->
  truthy (VRef l) w = Some (negb (Nat.eqb (length (obj_vals o)) 0), w).
Proof.
  intros Ho. cbn [truthy].
  assert (Hg : get_object l w = Some (o, w)) by (unfold get_object; now rewrite Ho).
  run Hg.
  destruct o as [d|es]; simpl; [|reflexivity].
  now rewrite length_map, length_map_to_list.
Qed.

Lemma reachable_agree_rev (h h' : heap) (y : loc) :
  (forall l, reachable h y l -> h' !! l = h !! l) ->
  forall l, reachable h' y l -> reachable h y l.
Proof.
  intros Hag l Hreach. revert Hag.
  induction Hreach as [l | l l1 l2 o Ho Hin Hreach IH]; intros Hag; [constructor|].
  assert (Ho' : h !! l = Some o) by (rewrite <- Hag; [exact Ho | constructor]).
  apply (reach_step h l l1 l2 o Ho' Hin).
  apply IH. intros l3 H3. apply Hag. eapply reach_step; eauto.
Qed.

Lemma truthy_scalar (v : val) (w w' : world) (b : bool) :
  (forall l, v <> VRef l) -> truthy v w = Some (b, w) -> truthy v w' = Some (b, w').
Proof.
  intros Hv. destruct v; simpl; unfold ret; try congruence.
  now destruct (Hv l).
Qed.

(** The status depends on the options only through the encrypted flag. *)
Lemma check_status_determined (self : EnvVarRequirement) (w1 w2 : world) (b : bool) :
  encrypted_truth self w1 = Some (b, w1) ->
  encrypted_truth self w2 = Some (b, w2) ->
  environ w2 = environ w1 ->
  exists st, check_status self w1 = Some (st, w1) /\ check_status self w2 = Some (st, w2).
Proof.
  intros H1 H2 He.
  pose proof (get_value_of_env_var_eq self w1) as Hv1.
  pose proof (get_value_of_env_var_eq self w2) as Hv2.
  pose proof (set_message_eq self w1 b H1) as Hm1.
  pose proof (set_message_eq self w2 b H2) as Hm2.
  rewrite Hv1 in Hm1. rewrite Hv2 in Hm2. rewrite He in Hv2, Hm2.
  destruct (environ w1 !! env_var self) as [s|].
  - destruct (String.eqb s "").
    + eexists. split; now apply check_status_unset.
    + destruct b; eexists; split; eapply check_status_set; eauto.
  - eexists. split; now apply check_status_unset.
Qed.

(** What the caller can reach from an object it had is an object it had. *)
Lemma reachable_old_objects (h0 h1 : heap) (a : loc) :
  heap_closed h0 ->
  (forall l, l ∈ dom h0 -> h1 !! l = h0 !! l) ->
  a ∈ dom h0 ->
  forall l, reachable h1 a l -> l ∈ dom h0.
Proof.
  intros Hcl Hfr Ha l Hreach.
  induction Hreach as [l | l l1 l2 o Ho Hin _ IH]; [exact Ha|].
  apply IH. rewrite (Hfr l Ha) in Ho. apply elem_of_dom.
  exact (proj1 (heap_closed_spec h0) Hcl l o l1 Ho Hin).
Qed.

(** C5: the options of a constructed requirement are a deep copy of the
    caller's mapping that shares no object with it: the objects under
    [self.options] are all new, those under the caller's mapping all old.
    Whatever the caller then does to the objects it had, the objects under
    [self.options], the encrypted flag (which is the one the mapping gave
    at construction) and the status stay as they were. *)
Theorem options_are_a_private_deep_copy
    (fuel : nat) (reg : PluginRegistry) (name : string)
    (a : loc) (d : gmap string val) (w : world) :
  heap_closed (objects w) ->
  objects w !! a = Some (ODict d) ->
  size (dom (objects w)) < fuel ->
  exists self w1 b,
    EnvVarRequirement_init fuel reg name (Some a) w = Some (self, w1) /\
    environ w1 = environ w /\
    (forall l, l ∈ dom (objects w) -> objects w1 !! l = objects w !! l) /\
    deep_copy_of (objects w) (objects w1) a (options self) /\
    (forall l, reachable (objects w1) (options self) l -> l ∉ dom (objects w)) /\
    (forall l, reachable (objects w1) a l -> l ∈ dom (objects w)) /\
    encrypted_truth (mkEnvVarRequirement reg a name) w = Some (b, w) /\
    forall w2,
      mutates_only_since (objects w) (objects w1) (objects w2) ->
      (forall l, reachable (objects w2) (options self) l <->
                 reachable (objects w1) (options self) l) /\
      (forall l, reachable (objects w1) (options self) l ->
                 objects w2 !! l = objects w1 !! l) /\
      encrypted_truth self w2 = Some (b, w2) /\
      (environ w2 = environ w1 ->
       exists st, check_status self w1 = Some (st, w1) /\
                  check_status self w2 = Some (st, w2)).
Proof.
  destruct w as [h e]. cbn [objects environ]. intros Hcl Ha Hfuel.
  assert (Hc0 : copying h ∅ h ∅).
  { constructor; [reflexivity | | |]; intros *; rewrite lookup_empty; discriminate. }
  assert (Had : a ∈ dom h) by (apply elem_of_dom; eauto).
  destruct (deepcopy_spec h e Hcl fuel (VRef a) ∅ h ∅ Hc0)
    as (x' & m & h' & Hrun & _ & Hc & Hfr & Hv).
  { now intros l [= <-]. }
  { eapply Nat.le_lt_trans; [apply subseteq_size | exact Hfuel]. set_solver. }
  destruct Hv as (y & Hay & ->).
  destruct (copying_done _ _ _ _ Hc a y Hay) as (o & o' & Ho & Hy & Hrel); [set_solver|].
  assert (o = ODict d) as -> by congruence.
  destruct o' as [dy|]; [|contradiction].
  set (self := mkEnvVarRequirement reg y name).
  assert (Hdone : forall a0 b0, m !! a0 = Some b0 ->
            exists o o', h !! a0 = Some o /\ h' !! b0 = Some o' /\ obj_rel m o o').
  { intros a0 b0 H0. apply (copying_done _ _ _ _ Hc a0 b0 H0). set_solver. }
  assert (Hrange : forall l, reachable h' y l -> exists a0, m !! a0 = Some l).
  { intros l Hl. apply (reachable_in_range m h h' Hdone y l Hl). eauto. }
  (* the flag the caller's mapping gives *)
  destruct (encrypted_truth_total (mkEnvVarRequirement reg a name) (World h e))
    as [b Hb]; [split; eauto|].
  exists self, (World h' e), b. cbn [objects environ].
  split.
  { unfold EnvVarRequirement_init, Requirement_init.
    run (bind_eq _ _ _ _ _ Hrun). reflexivity. }
  split; [reflexivity|]. split; [exact Hfr|].
  split; [exists m; split; [exact Hay|]; split; [exact (copying_inj _ _ _ _ Hc) | exact Hdone]|].
  split.
  { intros l Hl. destruct (Hrange l Hl) as (a0 & Ha0).
    now apply (copying_new _ _ _ _ Hc a0 l). }
  split; [exact (reachable_old_objects h h' a Hcl Hfr Had)|].
  split; [exact Hb|].
  assert (Henc : forall h2 e2,
            (forall l, reachable h' y l -> h2 !! l = h' !! l) ->
            encrypted_truth self (World h2 e2) = Some (b, World h2 e2)).
  { intros h2 e2 Hsame.
    assert (Hy2 : h2 !! y = Some (ODict dy)) by (rewrite Hsame; [exact Hy | constructor]).
    unfold encrypted_truth in *.
    run (encrypted_eq self (World h2 e2) dy Hy2).
    run (encrypted_eq (mkEnvVarRequirement reg a name) (World h e) d Ha) in Hb.
    cbn [env_var self] in *. specialize (Hrel "encrypted").
    inversion Hrel as [v v' Hvv Hd Hd' | Hd Hd']; rewrite <- Hd in Hb;
      [|apply (truthy_scalar _ (World h e)); [congruence | exact Hb]].
    destruct v as [| bv | z | s | a1];
      try (simpl in Hvv; subst v'; apply (truthy_scalar _ (World h e)); [congruence | exact Hb]).
    destruct Hvv as (b1 & Hab1 & ->).
    destruct (Hdone a1 b1 Hab1) as (o1 & o1' & Ho1 & Ho1' & Hrel1).
    assert (Hreach : reachable h' y b1).
    { apply (reach_step h' y b1 b1 (ODict dy) Hy); [|constructor].
      apply in_obj_refs. apply (dict_lookup_vals dy "encrypted"). now symmetry. }
    rewrite (truthy_ref (World h e) a1 o1 Ho1) in Hb.
    rewrite (truthy_ref (World h2 e2) b1 o1') by (cbn; rewrite Hsame; auto).
    rewrite <- (obj_rel_size m o1 o1' Hrel1). congruence. }
  intros [h2 e2]. cbn [objects environ]. intros Hmut.
  assert (Hsame : forall l, reachable h' y l -> h2 !! l = h' !! l).
  { intros l Hl. destruct (Hrange l Hl) as (a0 & Ha0).
    destruct (copying_new _ _ _ _ Hc a0 l Ha0) as (_ & Hin & Hnew). now apply Hmut. }
  split.
  { intros l. split.
    - apply reachable_agree_rev. exact Hsame.
    - apply reachable_agree. exact Hsame. }
  split; [exact Hsame|]. split; [exact (Henc h2 e2 Hsame)|].
  intros He2. apply (check_status_determined self (World h' e) (World h2 e2) b).
  - apply Henc. reflexivity.
  - exact (Henc h2 e2 Hsame).
  - exact He2.
Qed.

(** Writing to an object the caller had, or allocating, is such a mutation,
    and so is any sequence of them. *)
Lemma mutates_only_since_refl (h0 h1 : heap) : mutates_only_since h0 h1 h1.
Proof. intros l _ _. reflexivity. Qed.

Lemma mutates_only_since_write (h0 h1 h2 : heap) (l : loc) (o : obj) :
  mutates_only_since h0 h1 h2 -> l ∈ dom h0 \/ l ∉ dom h1 ->
  mutates_only_since h0 h1 (<[l := o]> h2).
Proof.
  intros H Hl l' H1 H0. rewrite lookup_insert_ne; [now apply H|].
  intros ->. destruct Hl; contradiction.
Qed.

Lemma caller_setitem_mutates_only (h0 : heap) (w1 w2 : world)
    (a : loc) (k : string) (v : val) :
  a ∈ dom h0 ->
  dict_setitem a k v w1 = Some (tt, w2) ->
  mutates_only_since h0 (objects w1) (objects w2) /\ environ w2 = environ w1.
Proof.
  intros Ha Hrun. destruct w1 as [h1 e1]. unfold dict_setitem in Hrun.
  apply bind_Some in Hrun as (d & w' & Hd & Hset).
  pose proof (read_only_get_dict a _ _ _ Hd) as ->.
  unfold set_object in Hset. injection Hset as <-. cbn [objects environ].
  split; [|reflexivity].
  apply mutates_only_since_write; [apply mutates_only_since_refl | now left].
Qed.

Lemma options_are_a_private_deep_copy_witness :
  exists self w1 b,
    EnvVarRequirement_init 3 sample_registry "FOO" (Some 1%positive) (World sample_heap ∅)
      = Some (self, w1) /\
    environ w1 = ∅ /\
    (forall l, l ∈ dom sample_heap -> objects w1 !! l = sample_heap !! l) /\
    deep_copy_of sample_heap (objects w1) 1%positive (options self) /\
    (forall l, reachable (objects w1) (options self) l -> l ∉ dom sample_heap) /\
    (forall l, reachable (objects w1) 1%positive l -> l ∈ dom sample_heap) /\
    encrypted_truth (mkEnvVarRequirement sample_registry 1%positive "FOO")
      (World sample_heap ∅) = Some (b, World sample_heap ∅) /\
    forall w2,
      mutates_only_since sample_heap (objects w1) (objects w2) ->
      (forall l, reachable (objects w2) (options self) l <->
                 reachable (objects w1) (options self) l) /\
      (forall l, reachable (objects w1) (options self) l ->
                 objects w2 !! l = objects w1 !! l) /\
      encrypted_truth self w2 = Some (b, w2) /\
      (environ w2 = environ w1 ->
       exists st, check_status self w1 = Some (st, w1) /\
                  check_status self w2 = Some (st, w2)).
Proof.
  apply (options_are_a_private_deep_copy 3 sample_registry "FOO" 1%positive
           {[ "encrypted" := VBool true; "default" := VRef 2%positive ]}
           (World sample_heap ∅)).
  - apply (bool_decide_unpack (heap_closed sample_heap)). vm_compute. exact I.
  - reflexivity.
  - vm_compute. lia.
Defined.

(** ** Form field names *)

Lemma split_dot_dot_free (a : string) : dot_free a = true -> split_dot a = [a].
Proof.
  induction a as [|c a IH]; simpl; [reflexivity|].
  intros H. apply andb_true_iff in H as [Hc Ha].
  apply negb_true_iff in Hc. rewrite Hc, (IH Ha). reflexivity.
Qed.

Lemma split_dot_app (a rest : string) :
  dot_free a = true -> split_dot (a +:+ "." +:+ rest) = a :: split_dot rest.
Proof.
  induction a as [|c a IH]; simpl; [reflexivity|].
  intros H. apply andb_true_iff in H as [Hc Ha].
  apply negb_true_iff in Hc. rewrite Hc, (IH Ha). reflexivity.
Qed.

(** The name of a form field splits back into its three pieces. *)
Lemma split_dot_field_name (req_id provider_key : string) :
  dot_free req_id = true -> dot_free provider_key = true ->
  split_dot (join_dot [req_id; provider_key; "value"]) = [req_id; provider_key; "value"].
Proof.
  intros Hi Hp. unfold join_dot. cbn [String.concat].
  rewrite (split_dot_app req_id _ Hi), (split_dot_app provider_key _ Hp).
  reflexivity.
Qed.

(** ** The interactive configuration server *)






Lemma post_single_field (s : UIServer) (name value : string) :
  listening s = true ->
  http_post [(name, value)] s
  = Some (mkResponse 200 [], finish_post (post_field s (name, value))).
Proof. intros H. unfold http_post. now rewrite H. Qed.

Lemma post_field_ignored (s : UIServer) (name value log : string) :
  route_field (_requirements_by_id s) name = Ignored log ->
  post_field s (name, value) = print_stderr log s.
Proof. intros H. unfold post_field. cbn [fst]. now rewrite H. Qed.

(** C4: a POST with a malformed field name is answered 200 and emits the
    done event; the field changes nothing and leaves exactly one line on
    stderr: too few pieces, unknown requirement id, or unknown provider. *)
Theorem malformed_field_names_are_ignored (s : UIServer) (name value : string) :
  listening s = true ->
  exists response s',
    http_post [(name, value)] s = Some (response, s') /\
    code response = 200 /\
    events s' = events s ++ [UIServerDoneEvent] /\
    (length (split_dot name) < 3 ->
       stderr s' = stderr s ++ ["not enough pieces in " +:+ repr_list (split_dot name)] /\
       context s' = context s) /\
    (forall req_id provider_key field more,
       split_dot name = req_id :: provider_key :: field :: more ->
       (lookup_id (_requirements_by_id s) req_id = None ->
          stderr s' = stderr s ++ [req_id +:+ " not a known requirement id"] /\
          context s' = context s) /\
       (forall status,
          lookup_id (_requirements_by_id s) req_id = Some status ->
          find_provider status provider_key = None ->
          stderr s' = stderr s ++ ["did not find provider " +:+ provider_key] /\
          context s' = context s)) /\
    (name = "nopieces" ->
       stderr s' = stderr s ++ ["not enough pieces in ['nopieces']"]) /\
    (name = "badid.EnvVarProvider.value" ->
       lookup_id (_requirements_by_id s) "badid" = None ->
       stderr s' = stderr s ++ ["badid not a known requirement id"]) /\
    (forall req_id status,
       dot_free req_id = true ->
       name = join_dot [req_id; "BadProvider"; "value"] ->
       lookup_id (_requirements_by_id s) req_id = Some status ->
       find_provider status "BadProvider" = None ->
       stderr s' = stderr s ++ ["did not find provider BadProvider"]).
Proof.
  intros Hl. eexists _, _. split; [exact (post_single_field s name value Hl)|].
  split; [reflexivity|].
  assert (Hevents : forall log, events (finish_post (print_stderr log s))
                                = events s ++ [UIServerDoneEvent]) by reflexivity.
  assert (Hshort : length (split_dot name) < 3 ->
            route_field (_requirements_by_id s) name
            = Ignored ("not enough pieces in " +:+ repr_list (split_dot name))).
  { unfold route_field. destruct (split_dot name) as [|a [|b [|c more]]]; simpl; try reflexivity.
    lia. }
  assert (Hid : forall req_id provider_key field more,
            split_dot name = req_id :: provider_key :: field :: more ->
            lookup_id (_requirements_by_id s) req_id = None ->
            route_field (_requirements_by_id s) name
            = Ignored (req_id +:+ " not a known requirement id")).
  { intros * Hsplit Hnone. unfold route_field. now rewrite Hsplit, Hnone. }
  assert (Hprov : forall req_id provider_key field more status,
            split_dot name = req_id :: provider_key :: field :: more ->
            lookup_id (_requirements_by_id s) req_id = Some status ->
            find_provider status provider_key = None ->
            route_field (_requirements_by_id s) name
            = Ignored ("did not find provider " +:+ provider_key)).
  { intros * Hsplit Hsome Hnone. unfold route_field. now rewrite Hsplit, Hsome, Hnone. }
  split.
  { unfold post_field. cbn [fst snd].
    destruct (route_field (_requirements_by_id s) name) as [log | st p f];
      [reflexivity|].
    destruct (String.eqb f "value"); reflexivity. }
  split.
  { intros H. now rewrite (post_field_ignored s name value _ (Hshort H)). }
  split.
  { intros * Hsplit. split.
    - intros Hnone. now rewrite (post_field_ignored s name value _ (Hid _ _ _ _ Hsplit Hnone)).
    - intros status Hsome Hnone.
      now rewrite (post_field_ignored s name value _ (Hprov _ _ _ _ _ Hsplit Hsome Hnone)). }
  split.
  { intros ->. now rewrite (post_field_ignored s "nopieces" value _ (Hshort ltac:(simpl; lia))). }
  split.
  { intros -> Hnone.
    now rewrite (post_field_ignored s _ value _
                   (Hid "badid" "EnvVarProvider" "value" [] eq_refl Hnone)). }
  intros req_id status Hfree -> Hsome Hnone.
  now rewrite (post_field_ignored s _ value _
                 (Hprov req_id "BadProvider" "value" [] status
                    (split_dot_field_name req_id "BadProvider" Hfree eq_refl) Hsome Hnone)).
Qed.

Lemma malformed_field_names_are_ignored_witness :
  exists response s',
    http_post [(join_dot [sample_id 0; "BadProvider"; "value"], "bloop")] sample_server
      = Some (response, s') /\
    code response = 200 /\
    events s' = [UIServerDoneEvent] /\
    stderr s' = ["did not find provider BadProvider"].
Proof.
  destruct (malformed_field_names_are_ignored sample_server
              (join_dot [sample_id 0; "BadProvider"; "value"]) "bloop" eq_refl)
    as (response & s' & Hpost & Hcode & Hevents & _ & _ & _ & _ & Hbad).
  exists response, s'. split; [exact Hpost|]. split; [exact Hcode|].
  split; [exact Hevents|].
  exact (Hbad (sample_id 0) sample_status eq_refl eq_refl eq_refl eq_refl).
Defined.

Lemma events_foldl_post_field (body : list (string * string)) (s : UIServer) :
  events (foldl post_field s body) = events s /\
  listening (foldl post_field s body) = listening s /\
  prepare_stage (foldl post_field s body) = prepare_stage s /\
  ctx_statuses (context (foldl post_field s body)) = ctx_statuses (context s).
Proof.
  revert s. induction body as [|f body IH]; intros s; [auto|].
  cbn [foldl]. destruct (IH (post_field s f)) as (-> & -> & -> & ->).
  unfold post_field.
  destruct (route_field (_requirements_by_id s) f.1) as [log | st p fname];
    [auto|].
  destruct (String.eqb fname "value"); auto.
Qed.

Lemma computing_status_no_requirements (h : heap) (interactive : bool)
    (logs : list string) (ctx : ConfigurePrepareContext) :
  ctx_statuses ctx = [] ->
  computing_status h interactive logs ctx
  = Some (Success (PrepareSuccess logs None (ctx_environ ctx))).
Proof. intros H. unfold computing_status. now rewrite H. Qed.

(** C7: a processed POST gives the caller's event handler exactly one done
    event, whatever was posted; [unlisten] closes the socket, after which no
    request is answered and no event follows.  A session without
    requirements ends with one event in all and a success result with empty
    logs, from the stage of the tests and from the pipeline step alike. *)
Theorem post_emits_exactly_one_done_event
    (s : UIServer) (body : list (string * string)) :
  listening s = true ->
  (exists response s',
     http_post body s = Some (response, s') /\
     code response = 200 /\
     events s' = events s ++ [UIServerDoneEvent] /\
     length (events s') = S (length (events s)) /\
     listening (unlisten s') = false /\
     events (unlisten s') = events s' /\
     (forall new_id, http_get new_id (unlisten s') = None) /\
     (forall body', http_post body' (unlisten s') = None)) /\
  (forall new_id environ0 local_state (h : heap) (stage : PrepareStage),
     stage = _no_op_prepare (mkContext environ0 local_state []) \/
     stage = computing_status_stage h (mkContext environ0 local_state []) ->
     exists response1 s1 response2 s2 final_environ,
       http_get new_id (UIServer_init stage) = Some (response1, s1) /\
       inputs response1 = [] /\
       http_post body s1 = Some (response2, s2) /\
       events (unlisten s2) = [UIServerDoneEvent] /\
       prepare_result (unlisten s2) = Some (PrepareSuccess [] None final_environ)).
Proof.
  intros Hl. split.
  - unfold http_post. rewrite Hl. eexists _, _. split; [reflexivity|].
    destruct (events_foldl_post_field body s) as (He & _).
    split; [reflexivity|].
    assert (Hev : events (finish_post (foldl post_field s body))
                  = events s ++ [UIServerDoneEvent])
      by (cbn [events finish_post]; now rewrite He).
    split; [exact Hev|]. split; [rewrite Hev, length_app; simpl; lia|].
    repeat split.
  - intros new_id environ0 local_state h stage Hstage.
    assert (Hget : http_get new_id (UIServer_init stage)
                   = Some (mkResponse 200 [], with_requirements_by_id [] (UIServer_init stage)))
      by (destruct Hstage as [-> | ->]; reflexivity).
    set (s1 := with_requirements_by_id [] (UIServer_init stage)) in *.
    destruct (events_foldl_post_field body s1) as (He & Hli & Hst & Hnil).
    assert (H1 : ctx_statuses (context s1) = [])
      by (destruct Hstage as [-> | ->]; reflexivity).
    rewrite H1 in Hnil. clear H1.
    exists (mkResponse 200 []), s1, (mkResponse 200 []),
           (finish_post (foldl post_field s1 body)).
    exists (match stage_function stage (context (foldl post_field s1 body)) with
            | Some (PrepareSuccess _ _ env) => env
            | _ => ∅
            end).
    split; [exact Hget|]. split; [reflexivity|].
    split; [unfold http_post; rewrite (ltac:(destruct Hstage as [-> | ->]; reflexivity)
                                        : listening s1 = true); reflexivity|].
    split; [cbn [events unlisten finish_post]; rewrite He; now destruct Hstage as [-> | ->]|].
    cbn [prepare_result unlisten finish_post]. rewrite Hst.
    destruct Hstage as [-> | ->]; [reflexivity|].
    cbn [prepare_stage s1 with_requirements_by_id UIServer_init stage_function
         computing_status_stage].
    now rewrite (computing_status_no_requirements h true [] _ Hnil).
Qed.

Lemma post_emits_exactly_one_done_event_witness :
  exists response s',
    http_post [] (UIServer_init (_no_op_prepare (mkContext ∅ ∅ []))) = Some (response, s') /\
    code response = 200 /\
    events s' = [UIServerDoneEvent].
Proof.
  destruct (post_emits_exactly_one_done_event
              (UIServer_init (_no_op_prepare (mkContext ∅ ∅ []))) [] eq_refl)
    as [(response & s' & Hpost & Hcode & Hevents & _) _].
  exists response, s'. auto.
Defined.

(** ** Service declarations *)

Lemma prefix_app (n b : string) : String.prefix n (n +:+ b) = true.
Proof.
  induction n as [|c n IH]; simpl; [now destruct b|].
  destruct (ascii_dec c c); [exact IH | contradiction].
Qed.

Lemma str_contains_here (n b : string) : str_contains n (n +:+ b) = true.
Proof.
  pose proof (prefix_app n b) as H.
  destruct (n +:+ b); cbn [str_contains]; now rewrite H.
Qed.

Lemma str_contains_app (a n b : string) : str_contains n (a +:+ n +:+ b) = true.
Proof.
  induction a as [|c a IH]; [exact (str_contains_here n b)|].
  change (String c a +:+ n +:+ b) with (String c (a +:+ n +:+ b)).
  cbn [str_contains]. rewrite IH. apply orb_true_r.
Qed.



(** ** Command line output *)

Lemma string_app_cons (x : ascii) (a b : string) :
  String x a +:+ b = String x (a +:+ b).
Proof. reflexivity. Qed.

Lemma string_app_assoc (a b c : string) : (a +:+ b) +:+ c = a +:+ b +:+ c.
Proof.
  induction a as [|x a IH]; [reflexivity|].
  rewrite !string_app_cons. f_equal. exact IH.
Qed.

Lemma string_app_nil_r (a : string) : a +:+ "" = a.
Proof.
  induction a as [|x a IH]; [reflexivity|].
  rewrite string_app_cons. f_equal. exact IH.
Qed.

Lemma printed_app (xs ys : list string) :
  printed (xs ++ ys) = printed xs +:+ printed ys.
Proof.
  induction xs as [|x xs IH]; [reflexivity|].
  cbn [printed app]. now rewrite IH, !string_app_assoc.
Qed.

Lemma frontend_calls_console (calls : list FrontendCall) (c : Console) :
  out (foldl frontend_call c calls) = out c +:+ printed (logs_of calls) /\
  err (foldl frontend_call c calls) = err c +:+ printed (errors_of calls).
Proof.
  revert c. induction calls as [|call calls IH]; intros c.
  - simpl. now rewrite !string_app_nil_r.
  - cbn [foldl]. destruct (IH (frontend_call c call)) as [-> ->].
    destruct call as [m|m]; cbn [frontend_call print_out print_err out err logs_of errors_of
                                 flat_map app printed];
      rewrite ?string_app_assoc; auto.
Qed.

(** C9: a command prints the collected logs on stdout in order and the
    collected errors on stderr in order; the description follows the errors
    on stderr when the result is a failure (it follows the logs on stdout
    when it is a success); the exit code is 0 on success and 1 on failure. *)
Theorem command_output_and_exit_code
    (calls : list FrontendCall) (status : SimpleStatus) :
  let '(exit_code, console) := run_command (calls, status) in
  out console = printed (logs_of calls ++
                         if success status then [description status] else []) /\
  err console = printed (errors_of calls ++
                         if success status then [] else [description status]) /\
  (success status = false ->
   err console = printed (errors_of calls) +:+ description status +:+ newline) /\
  (exit_code <> 0 <-> success status = false) /\
  exit_code = (if success status then 0 else 1).
Proof.
  unfold run_command. cbn [fst snd].
  destruct (frontend_calls_console calls (mkConsole "" "")) as [Hout Herr].
  cbn [out err] in Hout, Herr. cbn [append] in Hout, Herr.
  destruct (success status);
    cbn [out err print_out print_err]; rewrite Hout, Herr, !printed_app;
    cbn [printed]; rewrite ?string_app_nil_r.
  - repeat split; try discriminate; try congruence.
  - repeat split; auto.
Qed.

(** ** The definitions on the inputs of the tests *)

Example endswith_password : endswith "DB_PASSWORD" "_PASSWORD" = true.
Proof. reflexivity. Qed.

Example endswith_too_short : endswith "PASSWORD" "_PASSWORD" = false.
Proof. reflexivity. Qed.

Example endswith_secret_key :
  map (endswith "AWS_SECRET_KEY") _secret_suffixes = [false; false; true; false].
Proof. reflexivity. Qed.

Example status_of_plain_variable :
  fst <$> check_status (sample_requirement "FOO") (World plain_heap {[ "FOO" := "bar" ]})
  = Some (mkRequirementStatus (sample_requirement "FOO") true
            "Environment variable FOO set to 'bar'" [mkProvider "EnvVarProvider"]).
Proof. reflexivity. Qed.

Example status_of_secret_variable :
  status_description <$>
    (fst <$> check_status (sample_requirement "DB_PASSWORD")
               (World plain_heap {[ "DB_PASSWORD" := "hunter2" ]}))
  = Some "Environment variable DB_PASSWORD is set.".
Proof. reflexivity. Qed.

Example status_of_unset_variable :
  fst <$> check_status (sample_requirement "FOO") (World plain_heap ∅)
  = Some (mkRequirementStatus (sample_requirement "FOO") false
            "Environment variable FOO is not set." [mkProvider "EnvVarProvider"]).
Proof. reflexivity. Qed.

Example status_without_options_dict :
  check_status (sample_requirement "FOO") (World ∅ {[ "FOO" := "bar" ]}) = None.
Proof. reflexivity. Qed.

(** A list that contains itself is copied to a list that contains itself. *)
Example deepcopy_of_a_cycle :
  (fun r => (r.1.1, objects r.2)) <$> deepcopy 2 (VRef 1%positive) ∅ (World cyclic_heap ∅)
  = Some (VRef 2%positive,
          <[2%positive := OList [VInt 1; VRef 2%positive]]> cyclic_heap).
Proof. vm_compute. reflexivity. Qed.

Example deepcopy_out_of_fuel :
  deepcopy 0 (VRef 1%positive) ∅ (World cyclic_heap ∅) = None.
Proof. reflexivity. Qed.

Example split_dot_pieces :
  split_dot "nopieces" = ["nopieces"] /\
  split_dot "badid.EnvVarProvider.value" = ["badid"; "EnvVarProvider"; "value"] /\
  split_dot "a..b" = ["a"; ""; "b"] /\
  split_dot "" = [""].
Proof. repeat split. Qed.

Example test_ui_server_not_enough_pieces_in_posted_name :
  stderr <$> (snd <$> http_post [("nopieces", "bloop")] sample_server)
  = Some ["not enough pieces in ['nopieces']"].
Proof. reflexivity. Qed.

Example test_ui_server_invalid_req_id_in_posted_name :
  stderr <$> (snd <$> http_post [("badid.EnvVarProvider.value", "bloop")] sample_server)
  = Some ["badid not a known requirement id"].
Proof. reflexivity. Qed.

Example test_ui_server_with_form :
  (fun s => ctx_local_state_file (context s) !! ["variables"; "FOO"]) <$>
    (snd <$> http_post [("req0.EnvVarProvider.value", "bloop")] sample_server)
  = Some (Some "bloop").
Proof. reflexivity. Qed.

Example test_unarchive_command :
  run_command ([info "a"; info "b"], mkSimpleStatus true "DESC" [])
  = (0, mkConsole ("a" +:+ newline +:+ "b" +:+ newline +:+ "DESC" +:+ newline) "").
Proof. reflexivity. Qed.

Example test_unarchive_command_error :
  run_command ([info "a"; info "b"; error "c"; error "d"],
               mkSimpleStatus false "DESC" ["c"; "d"])
  = (1, mkConsole ("a" +:+ newline +:+ "b" +:+ newline)
                  ("c" +:+ newline +:+ "d" +:+ newline +:+ "DESC" +:+ newline)).
Proof. reflexivity. Qed.

Example test_service_dict_with_options :
  load_services (String.eqb "redis")
    [("FOOBAR", YDict [("type", YStr "redis"); ("foo", YStr "bar"); ("default", YStr "hello")])]
  = ([mkServiceRequirement "FOOBAR" "redis"
        [("type", YStr "redis"); ("foo", YStr "bar"); ("default", YStr "hello")]], []).
Proof. reflexivity. Qed.

(** The caller clears the flag in its own mapping after construction: the
    requirement still has the flag it was constructed with. *)
Example caller_mutation_does_not_reach_options :
  fst <$> (self ← EnvVarRequirement_init 3 sample_registry "FOO" (Some 1%positive);
           _ ← dict_setitem 1%positive "encrypted" (VBool false);
           kept ← encrypted_truth self;
           callers ← encrypted_truth (mkEnvVarRequirement sample_registry 1%positive "FOO");
           ret (kept, callers)) (World sample_heap ∅)
  = Some (true, false).
Proof. vm_compute. reflexivity. Qed.

(* ===================================================================== *)
(** * Further properties of requirement.py                                *)
(* ===================================================================== *)

(** ** Strings *)

Lemma string_app_inv_head (p a b : string) : p +:+ a = p +:+ b -> a = b.
Proof.
  induction p as [|c p IH]; [auto|].
  rewrite !string_app_cons. intros [= H]. auto.
Qed.

Lemma string_app_inv_tail (a b t : string) : a +:+ t = b +:+ t -> a = b.
Proof.
  revert b. induction a as [|c a IH]; intros [|c' b] H.
  - reflexivity.
  - apply (f_equal String.length) in H.
    rewrite !string_length_app in H. cbn [String.length] in H. lia.
  - apply (f_equal String.length) in H.
    rewrite !string_length_app in H. cbn [String.length] in H. lia.
  - rewrite !string_app_cons in H. injection H as -> H. f_equal. auto.
Qed.

Lemma endswith_length (s suffix : string) :
  endswith s suffix = true -> String.length suffix <= String.length s.
Proof.
  intros H. apply endswith_spec in H as [p ->]. rewrite string_length_app. lia.
Qed.

Lemma endswith_app (p s suffix : string) :
  endswith s suffix = true -> endswith (p +:+ s) suffix = true.
Proof.
  intros H. apply endswith_spec in H as [q ->]. apply endswith_spec.
  exists (p +:+ q). now rewrite string_app_assoc.
Qed.

(** ** What a run of [check_status] went through *)

Lemma run_check_status_inv (self : EnvVarRequirement) (w w' : world)
    (st : RequirementStatus) :
  check_status self w = Some (st, w') ->
  w' = w /\
  requirement st = self /\
  possible_providers st
  = find_providers_by_env_var (registry self) (options self) (env_var self) /\
  ((has_been_provided st = false /\
    status_description st = _unset_message self /\
    (environ w !! env_var self = None \/ environ w !! env_var self = Some "")) \/
   (has_been_provided st = true /\
    exists s b, environ w !! env_var self = Some s /\ s <> "" /\
                encrypted_truth self w = Some (b, w) /\
                status_description st
                = if b then "Environment variable " +:+ env_var self +:+ " is set."
                  else "Environment variable " +:+ env_var self +:+ " set to '"
                       +:+ s +:+ "'")).
Proof.
  intros H. pose proof (read_only_check_status self _ _ _ H) as ->.
  split; [reflexivity|].
  pose proof (get_value_of_env_var_eq self w) as Hv.
  destruct (environ w !! env_var self) as [s|] eqn:He.
  - destruct (String.eqb_spec s "") as [->|Hne].
    + rewrite (check_status_unset self w Hv) in H. injection H as <-.
      cbn. repeat split. left. auto.
    + unfold check_status in H. run Hv in H.
      apply bind_Some in H as (d & w1 & Hd & Hret).
      pose proof (read_only_set_message self _ _ _ Hd) as ->.
      unfold ret in Hret. injection Hret as <-. cbn. repeat split. right.
      split; [reflexivity|].
      assert (Hb : exists b, encrypted_truth self w = Some (b, w)).
      { unfold _set_message in Hd. apply bind_Some in Hd as (e & w1 & He1 & Hd).
        pose proof (read_only_encrypted self _ _ _ He1) as ->.
        apply bind_Some in Hd as (b & w1 & Hb1 & _).
        pose proof (read_only_truthy e _ _ _ Hb1) as ->.
        exists b. unfold encrypted_truth. now run He1. }
      destruct Hb as [b Hb]. exists s, b.
      split; [reflexivity|]. split; [exact Hne|]. split; [exact Hb|].
      rewrite (set_message_eq self w b Hb), Hv in Hd.
      destruct b; cbn [format_value] in Hd; congruence.
  - rewrite (check_status_unset self w Hv) in H. injection H as <-.
    cbn. repeat split. left. auto.
Qed.

(** ** The status of a requirement *)

(** X1: on a constructed requirement [check_status] returns a status that is
    provided, and true as a boolean, exactly when [environ] has a non-empty
    value for the variable; the status refers to the requirement itself and
    carries the providers the registry finds, provided or not. *)
Theorem provided_iff_set_and_non_empty (self : EnvVarRequirement) (w : world) :
  wf_requirement w self ->
  exists st,
    check_status self w = Some (st, w) /\
    requirement st = self /\
    possible_providers st
    = find_providers_by_env_var (registry self) (options self) (env_var self) /\
    (has_been_provided st = true <->
     exists s, environ w !! env_var self = Some s /\ s <> "") /\
    status_bool st = has_been_provided st.
Proof.
  intros Hwf. destruct (check_status_total self w Hwf) as [st Hst].
  exists st. split; [exact Hst|].
  destruct (run_check_status_inv self w w st Hst) as (_ & Hreq & Hprov & Hcases).
  split; [exact Hreq|]. split; [exact Hprov|]. split; [|reflexivity].
  destruct Hcases as [(Hf & _ & Hun) | (Ht & s & b & Hs & Hne & _)].
  - rewrite Hf. split; [discriminate|].
    intros (s & Hs & Hne). destruct Hun as [Hun | Hun]; congruence.
  - rewrite Ht. split; [eauto | reflexivity].
Qed.

Lemma provided_iff_set_and_non_empty_witness :
  exists st,
    check_status (sample_requirement "FOO") (sample_world "FOO" "x")
      = Some (st, sample_world "FOO" "x") /\
    has_been_provided st = true.
Proof.
  destruct (provided_iff_set_and_non_empty
              (sample_requirement "FOO") (sample_world "FOO" "x"))
    as (st & Hst & _ & _ & Hiff & _).
  - split.
    + apply (bool_decide_unpack (heap_closed sample_heap)). vm_compute. exact I.
    + eexists. reflexivity.
  - exists st. split; [exact Hst|]. apply Hiff. exists "x". split; [reflexivity | discriminate].
Defined.

(** X2: for a variable that is not encrypted and set to a non-empty value,
    the description quotes the value as it is; it contains the value, and
    two values with the same description are the same value. *)
Theorem plain_status_quotes_value
    (self : EnvVarRequirement) (w : world) (s : string) :
  encrypted_truth self w = Some (false, w) ->
  environ w !! env_var self = Some s ->
  s <> "" ->
  exists st,
    check_status self w = Some (st, w) /\
    has_been_provided st = true /\
    status_description st
    = "Environment variable " +:+ env_var self +:+ " set to '" +:+ s +:+ "'" /\
    str_contains s (status_description st) = true /\
    forall w' s' st',
      environ w' !! env_var self = Some s' -> s' <> "" ->
      encrypted_truth self w' = Some (false, w') ->
      check_status self w' = Some (st', w') ->
      status_description st' = status_description st -> s' = s.
Proof.
  intros Henc He Hne.
  assert (Hst : forall w0 s0,
             encrypted_truth self w0 = Some (false, w0) ->
             environ w0 !! env_var self = Some s0 -> s0 <> "" ->
             check_status self w0
             = Some (mkRequirementStatus self true
                       ("Environment variable " +:+ env_var self +:+ " set to '"
                        +:+ s0 +:+ "'")
                       (find_providers_by_env_var (registry self) (options self)
                          (env_var self)), w0)).
  { intros w0 s0 Henc0 He0 Hne0.
    assert (Hv : _get_value_of_env_var self w0 = Some (Some s0, w0)).
    { rewrite get_value_of_env_var_eq, He0.
      destruct (String.eqb_spec s0 ""); [contradiction | reflexivity]. }
    apply (check_status_set self w0 s0); [exact Hv|].
    now rewrite (set_message_eq self w0 false Henc0), Hv. }
  eexists. split; [exact (Hst w s Henc He Hne)|].
  cbn [has_been_provided status_description].
  split; [reflexivity|]. split; [reflexivity|]. split.
  - replace ("Environment variable " +:+ env_var self +:+ " set to '" +:+ s +:+ "'")
      with (("Environment variable " +:+ env_var self +:+ " set to '") +:+ s +:+ "'")
      by (now rewrite !string_app_assoc).
    apply str_contains_app.
  - intros w' s' st' He' Hne' Henc' Hst' Hd.
    rewrite (Hst w' s' Henc' He' Hne') in Hst'. injection Hst' as <-.
    cbn [status_description] in Hd.
    apply string_app_inv_head, string_app_inv_head, string_app_inv_head in Hd.
    now apply string_app_inv_tail in Hd.
Qed.

Lemma plain_status_quotes_value_witness :
  exists st,
    check_status (sample_requirement "FOO") (World plain_heap {[ "FOO" := "bar" ]})
      = Some (st, World plain_heap {[ "FOO" := "bar" ]}) /\
    status_description st = "Environment variable FOO set to 'bar'".
Proof.
  destruct (plain_status_quotes_value (sample_requirement "FOO")
              (World plain_heap {[ "FOO" := "bar" ]}) "bar")
    as (st & Hst & _ & Hd & _); [reflexivity | reflexivity | discriminate |].
  exists st. split; [exact Hst | exact Hd].
Defined.

(** X3: [_set_message] does not look whether the variable is set.  For a
    variable that is absent or empty it still says "is set." when the
    requirement is encrypted, and quotes the text [None] when it is not. *)
Theorem set_message_of_unset_variable
    (self : EnvVarRequirement) (w : world) (b : bool) :
  encrypted_truth self w = Some (b, w) ->
  environ w !! env_var self = None \/ environ w !! env_var self = Some "" ->
  _set_message self w
  = Some (if b then "Environment variable " +:+ env_var self +:+ " is set."
          else "Environment variable " +:+ env_var self +:+ " set to 'None'", w).
Proof.
  intros Henc Hun. rewrite (set_message_eq self w b Henc), get_value_of_env_var_eq.
  destruct b; [reflexivity|].
  destruct Hun as [-> | ->]; reflexivity.
Qed.

Lemma set_message_of_unset_variable_witness :
  _set_message (sample_requirement "FOO") (World plain_heap {[ "FOO" := "" ]})
  = Some ("Environment variable FOO set to 'None'", World plain_heap {[ "FOO" := "" ]}).
Proof.
  apply (set_message_of_unset_variable (sample_requirement "FOO")
           (World plain_heap {[ "FOO" := "" ]}) false); [reflexivity|].
  right. reflexivity.
Defined.

(** X4: every description [check_status] produces names the variable. *)
Theorem status_description_names_variable
    (self : EnvVarRequirement) (w w' : world) (st : RequirementStatus) :
  check_status self w = Some (st, w') ->
  str_contains (env_var self) (status_description st) = true.
Proof.
  intros H.
  destruct (run_check_status_inv self w w' st H)
    as (_ & _ & _ & [(_ & -> & _) | (_ & s & b & _ & _ & _ & ->)]).
  - apply str_contains_app.
  - destruct b; apply str_contains_app.
Qed.

Lemma status_description_names_variable_witness :
  str_contains "FOO" "Environment variable FOO is not set." = true.
Proof.
  apply (status_description_names_variable (sample_requirement "FOO")
           (World sample_heap ∅) (World sample_heap ∅) sample_status).
  reflexivity.
Defined.

(** X5: the status depends on [environ] only at the requirement's own
    variable: two environs that agree there give the same outcome of
    [check_status] (the same status, or an exception in both). *)
Theorem status_ignores_other_variables (self : EnvVarRequirement) (w w' : world) :
  objects w' = objects w ->
  environ w' !! env_var self = environ w !! env_var self ->
  fst <$> check_status self w' = fst <$> check_status self w.
Proof.
  destruct w as [h e], w' as [h' e']. cbn [objects environ]. intros -> Henv.
  unfold check_status, _get_value_of_env_var, environ_get, _set_message, encrypted,
    get_dict, truthy, get_object, mbind, M_bind, bind, ret, raise.
  cbn [objects environ]. rewrite Henv.
  repeat (case_match; simplify_eq/=); first [reflexivity | congruence].
Qed.

Lemma status_ignores_other_variables_witness :
  fst <$> check_status (sample_requirement "FOO")
            (World sample_heap (<[ "BAR" := "1" ]> {[ "FOO" := "x" ]}))
  = fst <$> check_status (sample_requirement "FOO") (sample_world "FOO" "x").
Proof.
  apply (status_ignores_other_variables (sample_requirement "FOO")
           (sample_world "FOO" "x")
           (World sample_heap (<[ "BAR" := "1" ]> {[ "FOO" := "x" ]})));
    reflexivity.
Defined.

(** X6: a status rechecks the requirement it came from against the environ
    of the moment: [recheck] is [check_status] of that requirement, so a
    status that was not provided rechecks as provided once the variable has
    a non-empty value. *)
Theorem recheck_follows_environ
    (self : EnvVarRequirement) (w w1 : world) (st : RequirementStatus) :
  check_status self w = Some (st, w1) ->
  (forall w', recheck st w' = check_status self w') /\
  (forall w', wf_requirement w' self ->
     (exists s, environ w' !! env_var self = Some s /\ s <> "") ->
     exists st', recheck st w' = Some (st', w') /\ has_been_provided st' = true).
Proof.
  intros H. destruct (run_check_status_inv self w w1 st H) as (_ & Hreq & _).
  assert (Hre : forall w', recheck st w' = check_status self w')
    by (intros w'; unfold recheck; now rewrite Hreq).
  split; [exact Hre|].
  intros w' Hwf (s & Hs & Hne).
  destruct (check_status_total self w' Hwf) as [st' Hst'].
  exists st'. rewrite Hre. split; [exact Hst'|].
  destruct (run_check_status_inv self w' w' st' Hst')
    as (_ & _ & _ & [(_ & _ & [Hun | Hun]) | (Ht & _)]); congruence.
Qed.

Lemma recheck_follows_environ_witness :
  exists st', recheck sample_status (sample_world "FOO" "x")
              = Some (st', sample_world "FOO" "x") /\
              has_been_provided st' = true.
Proof.
  destruct (recheck_follows_environ (sample_requirement "FOO")
              (World sample_heap ∅) (World sample_heap ∅) sample_status)
    as [_ Hprovided]; [reflexivity|].
  apply Hprovided.
  - split.
    + apply (bool_decide_unpack (heap_closed sample_heap)). vm_compute. exact I.
    + eexists. reflexivity.
  - exists "x". split; [reflexivity | discriminate].
Defined.

(** X7: without an [encrypted] option the flag is decided by the end of the
    name alone: a name that is encrypted by default stays so under any
    prefix, and has at least the seven characters of the shortest suffix. *)
Theorem default_encrypted_looks_at_the_end_only
    (reg : PluginRegistry) (o : loc) (name p : string) (w : world)
    (opts : gmap string val) :
  objects w !! o = Some (ODict opts) ->
  opts !! "encrypted" = None ->
  encrypted_truth (mkEnvVarRequirement reg o name) w = Some (true, w) ->
  encrypted_truth (mkEnvVarRequirement reg o (p +:+ name)) w = Some (true, w) /\
  7 <= String.length name.
Proof.
  intros Ho Hopt H. unfold encrypted_truth in *.
  run (encrypted_eq (mkEnvVarRequirement reg o name) w opts Ho) in H.
  run (encrypted_eq (mkEnvVarRequirement reg o (p +:+ name)) w opts Ho).
  rewrite Hopt in *. cbn [truthy env_var] in *. unfold ret in *.
  assert (Hany : any (fun suffix => endswith name suffix) _secret_suffixes = true)
    by congruence.
  apply any_spec in Hany as (suffix & Hin & Hends). split.
  - f_equal. f_equal. apply any_spec. exists suffix. split; [exact Hin|].
    now apply endswith_app.
  - apply endswith_length in Hends.
    destruct Hin as [<- | [<- | [<- | [<- | []]]]]; cbn in Hends; lia.
Qed.

Lemma default_encrypted_looks_at_the_end_only_witness :
  encrypted_truth (mkEnvVarRequirement sample_registry 1%positive ("DB" +:+ "_PASSWORD"))
    (World plain_heap ∅) = Some (true, World plain_heap ∅) /\
  7 <= String.length "_PASSWORD".
Proof.
  apply (default_encrypted_looks_at_the_end_only sample_registry 1%positive
           "_PASSWORD" "DB" (World plain_heap ∅) ∅); reflexivity.
Defined.

(** ** Construction *)

(** X9: without options a requirement gets an empty dict of its own: an
    object that was not in the store, with the store otherwise as it was,
    whatever the fuel.  Its flag is the suffix rule, and the next
    requirement constructed without options gets another dict. *)
Theorem default_options_are_a_new_empty_dict
    (fuel : nat) (reg : PluginRegistry) (name : string) (w : world) :
  exists self w1,
    EnvVarRequirement_init fuel reg name None w = Some (self, w1) /\
    registry self = reg /\ env_var self = name /\
    (options self ∉ dom (objects w)) /\
    objects w1 = <[options self := ODict ∅]> (objects w) /\
    environ w1 = environ w /\
    encrypted_truth self w1
    = Some (any (fun suffix => endswith name suffix) _secret_suffixes, w1) /\
    forall fuel' reg' name',
      exists self' w2,
        EnvVarRequirement_init fuel' reg' name' None w1 = Some (self', w2) /\
        options self' <> options self /\
        objects w2 !! options self = Some (ODict ∅).
Proof.
  destruct w as [h e].
  exists (mkEnvVarRequirement reg (fresh (dom h)) name),
         (World (<[fresh (dom h) := ODict ∅]> h) e).
  pose proof (is_fresh (dom h)) as Hfresh.
  set (y := fresh (dom h)) in *. cbn [objects environ options registry env_var].
  split; [reflexivity|]. split; [reflexivity|]. split; [reflexivity|].
  split; [exact Hfresh|]. split; [reflexivity|]. split; [reflexivity|].
  split.
  - unfold encrypted_truth.
    run (encrypted_eq (mkEnvVarRequirement reg y name)
           (World (<[y := ODict ∅]> h) e) ∅ (lookup_insert_eq h y (ODict ∅))).
    now rewrite lookup_empty.
  - intros fuel' reg' name'.
    pose proof (is_fresh (dom (<[y := ODict ∅]> h))) as Hfresh'.
    set (y' := fresh (dom (<[y := ODict ∅]> h))) in *.
    assert (Hne : y' <> y).
    { intros E. apply Hfresh'. rewrite E, dom_insert. set_solver. }
    exists (mkEnvVarRequirement reg' y' name'),
           (World (<[y' := ODict ∅]> (<[y := ODict ∅]> h)) e).
    cbn [objects options]. split; [reflexivity|]. split; [exact Hne|].
    rewrite lookup_insert_ne by exact Hne. apply lookup_insert_eq.
Qed.

(** How the constructor runs on a mapping of the caller. *)
Lemma init_with_options_run (fuel : nat) (reg : PluginRegistry) (name : string)
    (a : loc) (d : gmap string val) (h : heap) (e : gmap string string) :
  heap_closed h -> h !! a = Some (ODict d) -> size (dom h) < fuel ->
  exists y h' m dy,
    EnvVarRequirement_init fuel reg name (Some a) (World h e)
    = Some (mkEnvVarRequirement reg y name, World h' e) /\
    copying h ∅ h' m /\ m !! a = Some y /\
    h' !! y = Some (ODict dy) /\ obj_rel m (ODict d) (ODict dy).
Proof.
  intros Hcl Ha Hfuel.
  assert (Hc0 : copying h ∅ h ∅).
  { constructor; [reflexivity | | |]; intros *; rewrite lookup_empty; discriminate. }
  destruct (deepcopy_spec h e Hcl fuel (VRef a) ∅ h ∅ Hc0)
    as (x' & m & h' & Hrun & _ & Hc & _ & Hv).
  { intros l [= <-]. apply elem_of_dom. eauto. }
  { eapply Nat.le_lt_trans; [apply subseteq_size | exact Hfuel]. set_solver. }
  destruct Hv as (y & Hay & ->).
  destruct (copying_done _ _ _ _ Hc a y Hay) as (o & o' & Ho & Hy & Hrel); [set_solver|].
  assert (o = ODict d) as -> by congruence.
  destruct o' as [dy|]; [|contradiction].
  exists y, h', m, dy. split; [|auto].
  unfold EnvVarRequirement_init, Requirement_init.
  run (bind_eq _ _ _ _ _ Hrun). reflexivity.
Qed.

(** X10: right after construction from a mapping, [self.options] is a dict
    with the same keys; a scalar value is the same value, a container value
    is a new object, and two keys hold the same object in the copy exactly
    when they do in the mapping. *)
Theorem copied_options_keep_keys_values_and_sharing
    (fuel : nat) (reg : PluginRegistry) (name : string)
    (a : loc) (d : gmap string val) (w : world) :
  heap_closed (objects w) ->
  objects w !! a = Some (ODict d) ->
  size (dom (objects w)) < fuel ->
  exists self w1 d',
    EnvVarRequirement_init fuel reg name (Some a) w = Some (self, w1) /\
    objects w1 !! options self = Some (ODict d') /\
    dom d' = dom d /\
    (forall k v, d !! k = Some v -> (forall l, v <> VRef l) -> d' !! k = Some v) /\
    (forall k l, d !! k = Some (VRef l) ->
       exists l', d' !! k = Some (VRef l') /\ (l' ∉ dom (objects w)) /\
                  is_Some (objects w1 !! l')) /\
    (forall k1 k2 l1 l2 l1' l2',
       d !! k1 = Some (VRef l1) -> d !! k2 = Some (VRef l2) ->
       d' !! k1 = Some (VRef l1') -> d' !! k2 = Some (VRef l2') ->
       (l1 = l2 <-> l1' = l2')).
Proof.
  destruct w as [h e]. cbn [objects]. intros Hcl Ha Hfuel.
  destruct (init_with_options_run fuel reg name a d h e Hcl Ha Hfuel)
    as (y & h' & m & dy & Hrun & Hc & Hay & Hy & Hrel).
  exists (mkEnvVarRequirement reg y name), (World h' e), dy.
  cbn [objects options obj_rel] in *.
  split; [exact Hrun|]. split; [exact Hy|].
  assert (Href : forall k l l', d !! k = Some (VRef l) -> dy !! k = Some (VRef l') ->
                                m !! l = Some l').
  { intros k l l' Hd Hd'. specialize (Hrel k). rewrite Hd, Hd' in Hrel.
    inversion Hrel as [? ? Hvv |]. cbn [val_rel] in Hvv.
    destruct Hvv as (l0 & Hl0 & [= ->]). exact Hl0. }
  split.
  { apply set_eq. intros k. rewrite !elem_of_dom. specialize (Hrel k).
    destruct Hrel; split; intros [? ?]; eauto; discriminate. }
  split.
  { intros k v Hd Hscalar. specialize (Hrel k). rewrite Hd in Hrel.
    inversion Hrel as [? v' Hvv |]; subst.
    destruct v; simpl in Hvv; try congruence; now destruct (Hscalar l). }
  split.
  { intros k l Hd. specialize (Hrel k). rewrite Hd in Hrel.
    inversion Hrel as [? v' Hvv Hd1 Hd2 |]. cbn [val_rel] in Hvv.
    destruct Hvv as (l' & Hl' & ->).
    exists l'. split; [reflexivity|].
    destruct (copying_new _ _ _ _ Hc l l' Hl') as (_ & Hin & Hnew).
    split; [exact Hnew | now apply elem_of_dom]. }
  intros k1 k2 l1 l2 l1' l2' H1 H2 H1' H2'.
  pose proof (Href k1 l1 l1' H1 H1') as Hm1.
  pose proof (Href k2 l2 l2' H2 H2') as Hm2.
  split.
  - intros ->. congruence.
  - intros ->. exact (copying_inj _ _ _ _ Hc l1 l2 l2' Hm1 Hm2).
Qed.

Lemma copied_options_keep_keys_values_and_sharing_witness :
  exists self w1 d',
    EnvVarRequirement_init 3 sample_registry "FOO" (Some 1%positive) (World sample_heap ∅)
      = Some (self, w1) /\
    objects w1 !! options self = Some (ODict d') /\
    d' !! "encrypted" = Some (VBool true).
Proof.
  destruct (copied_options_keep_keys_values_and_sharing 3 sample_registry "FOO" 1%positive
              {[ "encrypted" := VBool true; "default" := VRef 2%positive ]}
              (World sample_heap ∅))
    as (self & w1 & d' & Hrun & Hd' & _ & Hscalar & _).
  - apply (bool_decide_unpack (heap_closed sample_heap)). vm_compute. exact I.
  - reflexivity.
  - vm_compute. lia.
  - exists self, w1, d'. split; [exact Hrun|]. split; [exact Hd'|].
    apply Hscalar; [reflexivity | discriminate].
Defined.

(** X11: the other direction of the copy: a write into [self.options]
    leaves every object of the caller's mapping as it was. *)
Theorem writing_options_does_not_reach_caller
    (fuel : nat) (reg : PluginRegistry) (name : string)
    (a : loc) (d : gmap string val) (w : world) :
  heap_closed (objects w) ->
  objects w !! a = Some (ODict d) ->
  size (dom (objects w)) < fuel ->
  exists self w1,
    EnvVarRequirement_init fuel reg name (Some a) w = Some (self, w1) /\
    forall k v,
      exists w2,
        dict_setitem (options self) k v w1 = Some (tt, w2) /\
        (exists d', objects w2 !! options self = Some (ODict d') /\ d' !! k = Some v) /\
        objects w2 !! a = Some (ODict d) /\
        (forall l, reachable (objects w) a l -> objects w2 !! l = objects w !! l) /\
        (forall l, reachable (objects w2) a l <-> reachable (objects w) a l).
Proof.
  destruct w as [h e]. cbn [objects]. intros Hcl Ha Hfuel.
  destruct (init_with_options_run fuel reg name a d h e Hcl Ha Hfuel)
    as (y & h' & m & dy & Hrun & Hc & Hay & Hy & _).
  exists (mkEnvVarRequirement reg y name), (World h' e).
  split; [exact Hrun|]. intros k v. cbn [options].
  exists (World (<[y := ODict (<[k := v]> dy)]> h') e). cbn [objects].
  destruct (copying_new _ _ _ _ Hc a y Hay) as (Had & _ & Hynew).
  assert (Hold : forall l, l ∈ dom h -> <[y := ODict (<[k := v]> dy)]> h' !! l = h !! l).
  { intros l Hl. rewrite lookup_insert_ne by (intros ->; contradiction).
    exact (copying_frame _ _ _ _ Hc l Hl). }
  assert (Hsame : forall l, reachable h a l ->
                            <[y := ODict (<[k := v]> dy)]> h' !! l = h !! l).
  { intros l Hl. apply Hold.
    exact (reachable_old_objects h h a Hcl (fun _ _ => eq_refl) Had l Hl). }
  split; [exact (run_dict_setitem h' e y dy k v Hy)|].
  split; [eexists; split; [apply lookup_insert_eq | apply lookup_insert_eq]|].
  split; [rewrite Hold; [exact Ha | exact Had]|].
  split; [exact Hsame|].
  intros l. split.
  - apply reachable_agree_rev. exact Hsame.
  - apply reachable_agree. exact Hsame.
Qed.

Lemma writing_options_does_not_reach_caller_witness :
  exists self w1,
    EnvVarRequirement_init 3 sample_registry "FOO" (Some 1%positive) (World sample_heap ∅)
      = Some (self, w1) /\
    exists w2,
      dict_setitem (options self) "encrypted" (VBool false) w1 = Some (tt, w2) /\
      objects w2 !! 1%positive
      = Some (ODict {[ "encrypted" := VBool true; "default" := VRef 2%positive ]}).
Proof.
  destruct (writing_options_does_not_reach_caller 3 sample_registry "FOO" 1%positive
              {[ "encrypted" := VBool true; "default" := VRef 2%positive ]}
              (World sample_heap ∅))
    as (self & w1 & Hrun & Hwrite).
  - apply (bool_decide_unpack (heap_closed sample_heap)). vm_compute. exact I.
  - reflexivity.
  - vm_compute. lia.
  - exists self, w1. split; [exact Hrun|].
    destruct (Hwrite "encrypted" (VBool false)) as (w2 & Hset & _ & Ha & _).
    exists w2. split; [exact Hset | exact Ha].
Defined.

(** ** The helper of test_service_requirement.py *)

Lemma first_service_Some (reqs : list AnyRequirement) (req : ServiceRequirement) :
  first_service reqs = Some req <->
  exists before after,
    reqs = before ++ ServiceKind req :: after /\
    forallb (fun r => negb (is_service r)) before = true.
Proof.
  induction reqs as [|[r|r] reqs IH]; cbn [first_service].
  - split; [discriminate|]. intros ([|? ?] & after & H & _); discriminate.
  - rewrite IH. split.
    + intros (before & after & -> & Hb). exists (EnvVarKind r :: before), after.
      split; [reflexivity | exact Hb].
    + intros ([|x before] & after & H & Hb); [discriminate|].
      injection H as <- ->. exists before, after. split; [reflexivity|].
      cbn in Hb. exact Hb.
  - split.
    + intros [= ->]. exists [], reqs. split; reflexivity.
    + intros ([|x before] & after & H & Hb).
      * now injection H as ->.
      * injection H as <- _. discriminate Hb.
Qed.

Lemma first_service_None (reqs : list AnyRequirement) :
  first_service reqs = None <-> forallb (fun r => negb (is_service r)) reqs = true.
Proof.
  induction reqs as [|[r|r] reqs IH]; cbn [first_service forallb is_service negb andb].
  - split; reflexivity.
  - exact IH.
  - split; discriminate.
Qed.

(** X12: the helper returns the first service requirement of a project
    without problems, whatever comes before and after it; any problem
    fails the assertion before the requirements are looked at; no service
    requirement is the [RuntimeError]. *)
Theorem load_service_requirement_returns_the_first (project : Project) :
  (forall req,
     _load_service_requirement project = inl req <->
     problems project = [] /\
     exists before after,
       requirements project = before ++ ServiceKind req :: after /\
       forallb (fun r => negb (is_service r)) before = true) /\
  (_load_service_requirement project = inr AssertionError <->
   problems project <> []) /\
  (_load_service_requirement project = inr (RuntimeError "no ServiceRequirement found") <->
   problems project = [] /\
   forallb (fun r => negb (is_service r)) (requirements project) = true).
Proof.
  unfold _load_service_requirement.
  destruct (decide (problems project = [])) as [Hnil | Hne].
  - rewrite (bool_decide_eq_true_2 _ Hnil).
    split; [|split].
    + intros req. rewrite <- first_service_Some.
      destruct (first_service (requirements project)); split.
      * intros [= ->]. auto.
      * intros [_ [= ->]]. reflexivity.
      * discriminate.
      * intros [_ [=]].
    + destruct (first_service (requirements project)); split; try discriminate; contradiction.
    + rewrite <- first_service_None.
      destruct (first_service (requirements project)); split; try discriminate; auto.
      intros [_ [=]].
  - rewrite (bool_decide_eq_false_2 _ Hne).
    split; [|split].
    + intros req. split; [discriminate | intros [? _]; contradiction].
    + split; auto.
    + split; [discriminate | intros [? _]; contradiction].
Qed.

(** ** The option and the name together *)

(** X13: an explicit [encrypted] option wins over the name.  Whatever the
    variable is called, a false option makes the description quote the
    value, and a true option makes it the fixed text without the value. *)
Theorem explicit_option_overrides_suffix
    (self : EnvVarRequirement) (w : world) (opts : gmap string val)
    (v : val) (b : bool) (s : string) :
  objects w !! options self = Some (ODict opts) ->
  opts !! "encrypted" = Some v ->
  truthy v w = Some (b, w) ->
  environ w !! env_var self = Some s ->
  s <> "" ->
  exists st,
    check_status self w = Some (st, w) /\
    has_been_provided st = true /\
    status_description st
    = if b then "Environment variable " +:+ env_var self +:+ " is set."
      else "Environment variable " +:+ env_var self +:+ " set to '" +:+ s +:+ "'".
Proof.
  intros Ho Hopt Hb He Hne.
  assert (Henc : encrypted_truth self w = Some (b, w)).
  { unfold encrypted_truth. run (encrypted_eq self w opts Ho). now rewrite Hopt. }
  assert (Hv : _get_value_of_env_var self w = Some (Some s, w)).
  { rewrite get_value_of_env_var_eq, He.
    destruct (String.eqb_spec s ""); [contradiction | reflexivity]. }
  exists (mkRequirementStatus self true
            (if b then "Environment variable " +:+ env_var self +:+ " is set."
             else "Environment variable " +:+ env_var self +:+ " set to '" +:+ s +:+ "'")
            (find_providers_by_env_var (registry self) (options self) (env_var self))).
  split; [|split; reflexivity].
  apply (check_status_set self w s); [exact Hv|].
  rewrite (set_message_eq self w b Henc), Hv. destruct b; reflexivity.
Qed.

Lemma explicit_option_overrides_suffix_witness :
  exists st,
    check_status (mkEnvVarRequirement sample_registry 1%positive "DB_PASSWORD")
      (World {[ 1%positive := ODict {[ "encrypted" := VBool false ]} ]}
             {[ "DB_PASSWORD" := "hunter2" ]})
    = Some (st, World {[ 1%positive := ODict {[ "encrypted" := VBool false ]} ]}
                      {[ "DB_PASSWORD" := "hunter2" ]}) /\
    has_been_provided st = true /\
    status_description st = "Environment variable DB_PASSWORD set to 'hunter2'".
Proof.
  apply (explicit_option_overrides_suffix
           (mkEnvVarRequirement sample_registry 1%positive "DB_PASSWORD")
           (World {[ 1%positive := ODict {[ "encrypted" := VBool false ]} ]}
                  {[ "DB_PASSWORD" := "hunter2" ]})
           {[ "encrypted" := VBool false ]} (VBool false) false "hunter2");
    first [reflexivity | discriminate].
Defined.
